(** * Scraper-Agent-Iterations: the crawl core of [scraper-agent.py]

    A shallow embedding of the chunk splitter, the oracle-response parser,
    the download dispatcher and the breadth-first crawl loop of
    [src/scraper-agent.py] (with the sibling loop of
    [src/universal_scraper_agent.py] where a statement compares the two),
    and the properties of them that the specification states. *)

From Stdlib Require Import ZArith Lia List String Ascii Floats.
From stdpp Require Import base tactics option list numbers strings gmap sets sorting.

Local Open Scope Z_scope.
Local Set Warnings "-register-all,-clear-no-such-hyp,-level-tolerance".

(* ===================================================================== *)
(** * Python sequences: [len] and slicing *)
(* ===================================================================== *)

Section PySeq.
Context {A : Type}.

(** [len(s)] as a Python integer. *)
Definition len (s : list A) : Z := Z.of_nat (length s).

(** How CPython adjusts one bound of [s[i:j]] (step [1]) against the
    length [n]: a negative bound counts from the end and is clipped at
    [0], a non-negative one is clipped at [n]. *)
Definition py_index (n i : Z) : Z :=
  if i <? 0 then Z.max (i + n) 0 else Z.min i n.

(** [s[start:stop]]. An empty range (upper bound not above the lower
    one) is the empty sequence. *)
Definition py_slice (s : list A) (start stop : Z) : list A :=
  let lo := py_index (len s) start in
  let hi := py_index (len s) stop in
  take (Z.to_nat (hi - lo)) (drop (Z.to_nat lo) s).

(* ------------------------------------------------------------------- *)
(** ** [chunk_html] (scraper-agent.py, lines 74-82)

<<
    def chunk_html(html_content, size, overlap):
        chunks = []
        start = 0
        while start < len(html_content):
            end = start + size
            chunks.append(html_content[start:end])
            start += size - overlap
        return chunks
>>
    The [while] loop is run with a fuel: [None] says the loop was still
    running when the fuel was used up, [Some chunks] is what the
    function returned.  The body contains no [raise] and no operation
    that can raise on integers and a string. *)

Fixpoint chunk_loop (fuel : nat) (html_content : list A) (size overlap : Z)
    (start : Z) (chunks : list (list A)) : option (list (list A)) :=
  if start <? len html_content then
    match fuel with
    | O => None
    | S fuel' =>
        let end_ := start + size in
        chunk_loop fuel' html_content size overlap
          (start + (size - overlap))
          (chunks ++ [py_slice html_content start end_])
    end
  else Some chunks.

Definition chunk_html (fuel : nat) (html_content : list A) (size overlap : Z)
    : option (list (list A)) :=
  chunk_loop fuel html_content size overlap 0 [].

(** The offsets the loop visits: the [k]-th chunk is the window that
    starts at [k * (size - overlap)]. *)
Definition chunk_start (size overlap k : Z) : Z := k * (size - overlap).

Definition chunk_end (html_content : list A) (size overlap k : Z) : Z :=
  Z.min (chunk_start size overlap k + size) (len html_content).

Definition chunk_at (html_content : list A) (size overlap k : Z) : list A :=
  py_slice html_content (chunk_start size overlap k)
    (chunk_start size overlap k + size).

(** [ceil(n / d)] for [d > 0]. *)
Definition ceil_div (n d : Z) : Z := (n + d - 1) / d.

Definition chunk_count (html_content : list A) (size overlap : Z) : Z :=
  ceil_div (len html_content) (size - overlap).

(** The list the loop builds under a valid configuration. *)
Definition chunk_windows (html_content : list A) (size overlap : Z)
    : list (list A) :=
  map (fun k : nat => chunk_at html_content size overlap (Z.of_nat k))
      (seq 0 (Z.to_nat (chunk_count html_content size overlap))).

End PySeq.

(** A Python [str] as the sequence of its characters. *)
Definition chars (s : string) : list ascii := list_ascii_of_string s.

(* ===================================================================== *)
(** * Python values, exceptions and sets *)
(* ===================================================================== *)

(** What [json.loads] can return: [None], [bool], [int], [float], [str],
    [list] and [dict] (a [dict] as its items in iteration order). *)
Inductive pyval : Type :=
  | PNone
  | PBool (b : bool)
  | PInt (z : Z)
  | PFloat (f : float)
  | PStr (s : string)
  | PList (items : list pyval)
  | PDict (items : list (string * pyval)).

(** The exceptions of the parsing stage; all are subclasses of
    [Exception]. *)
Inductive exn : Type :=
  | JSONDecodeError
  | TypeError
  | OtherException.

(** [isinstance(v, list)]. *)
Definition is_list (v : pyval) : bool :=
  match v with PList _ => true | _ => false end.

(** [hash(v)] is defined for the scalars and raises [TypeError] for
    [list] and [dict]. *)
Definition hashable (v : pyval) : bool :=
  match v with PList _ | PDict _ => false | _ => true end.

(** Python's numeric equality: [bool] is an [int] ([True == 1]); an
    [int] and a [float] are compared by value, exactly. *)
Definition float_is_Z (f : float) (z : Z) : bool :=
  match Prim2SF f with
  | S754_zero _ => z =? 0
  | S754_finite s m e =>
      let v := if s then Z.neg m else Z.pos m in
      if 0 <=? e then z =? v * 2 ^ e else z * 2 ^ (- e) =? v
  | _ => false
  end.

(** Equality as a [set] tests it on the values a decoded response holds:
    identity first (the decoder returns one shared object for every
    [NaN]), then [==]. *)
Definition float_same (f g : float) : bool :=
  (PrimFloat.is_nan f && PrimFloat.is_nan g) || PrimFloat.eqb f g.

Definition py_eq (a b : pyval) : bool :=
  match a, b with
  | PNone, PNone => true
  | PStr s, PStr t => String.eqb s t
  | PBool x, PBool y => Bool.eqb x y
  | PBool x, PInt z | PInt z, PBool x => Z.b2z x =? z
  | PInt x, PInt y => x =? y
  | PFloat f, PFloat g => float_same f g
  | PFloat f, PInt z | PInt z, PFloat f => float_is_Z f z
  | PFloat f, PBool x | PBool x, PFloat f => float_is_Z f (Z.b2z x)
  | _, _ => false
  end.

(** A [set] of hashable values, as its elements in insertion order
    (Python leaves the iteration order unspecified). *)
Definition pyset : Type := list pyval.

Definition py_in (x : pyval) (s : pyset) : bool := existsb (py_eq x) s.

(** [s.add(x)]: [TypeError] for an unhashable [x]; no change when an
    equal element is present. *)
Definition set_add (x : pyval) (s : pyset) : exn + pyset :=
  if hashable x then inr (if py_in x s then s else s ++ [x])
  else inl TypeError.

(* ===================================================================== *)
(** * The pattern [\{[\s\S]*\}|\[[\s\S]*\]] *)
(* ===================================================================== *)

(** The longest prefix of [s] that ends with the character [c] (what the
    greedy [[\s\S]*c] matches at the start of [s]). *)
Fixpoint upto_last (c : ascii) (s : string) : option string :=
  match s with
  | EmptyString => None
  | String a s' =>
      match upto_last c s' with
      | Some p => Some (String a p)
      | None => if Ascii.eqb a c then Some (String a EmptyString) else None
      end
  end.

(** [re.search(r'\{[\s\S]*\}|\[[\s\S]*\]', s)], as [group(0)] of the
    match: the leftmost position where an alternative matches, the first
    alternative tried first, each taking the longest run. *)
Fixpoint re_search (s : string) : option string :=
  match s with
  | EmptyString => None
  | String a s' =>
      if Ascii.eqb a "{" then
        match upto_last "}" s' with
        | Some p => Some (String a p)
        | None => re_search s'
        end
      else if Ascii.eqb a "[" then
        match upto_last "]" s' with
        | Some p => Some (String a p)
        | None => re_search s'
        end
      else re_search s'
  end.

(** [not result_str] for a string. *)
Definition str_falsy (s : string) : bool :=
  match s with EmptyString => true | _ => false end.

(* ===================================================================== *)
(** * The response parser *)
(* ===================================================================== *)

Section Parser.
(** [json.loads], of the standard library: the decoded value, or the
    exception it raises. *)
Variable json_loads : string -> exn + pyval.

(** <<
      for key, value in data.items():
          if isinstance(value, list):
              selectors_list = value
              break
>>  *)
Fixpoint first_list_value (items : list (string * pyval)) : list pyval :=
  match items with
  | [] => []
  | (_, value) :: rest =>
      match value with
      | PList l => l
      | _ => first_list_value rest
      end
  end.

(** Lines 121-128 of scraper-agent.py: the candidate list of a decoded
    response. *)
Definition selectors_list_of (data : pyval) : list pyval :=
  match data with
  | PDict items => first_list_value items
  | PList l => l
  | _ => []
  end.

(** Lines 130-131: [for selector in selectors_list:
    all_selectors.add(selector)].  The set is updated in place, so the
    elements added before an exception stay in it. *)
Fixpoint add_selectors (selectors_list : list pyval) (all_selectors : pyset)
    : pyset * (exn + unit) :=
  match selectors_list with
  | [] => (all_selectors, inr tt)
  | selector :: rest =>
      match set_add selector all_selectors with
      | inl e => (all_selectors, inl e)
      | inr s' => add_selectors rest s'
      end
  end.

(** The body of the [try] block (lines 115-131) for one non-empty
    response. *)
Definition parse_try_body (result_str : string) (all_selectors : pyset)
    : pyset * (exn + unit) :=
  match re_search result_str with
  | None => (all_selectors, inr tt)
  | Some json_str =>
      match json_loads json_str with
      | inl e => (all_selectors, inl e)
      | inr data => add_selectors (selectors_list_of data) all_selectors
      end
  end.

(** [try: body except Exception as e: main_logger.error(...)]: the
    handler logs and falls through, whatever was raised. *)
Definition try_except_log (r : pyset * (exn + unit)) : pyset * (exn + unit) :=
  match r with
  | (s, inl _) => (s, inr tt)
  | (s, inr u) => (s, inr u)
  end.

(** One iteration of the loop of lines 111-134.  A response is [None]
    when [call_llm_api] caught a request failure. *)
Definition parse_response (result_str : option string) (all_selectors : pyset)
    : pyset * (exn + unit) :=
  match result_str with
  | None => (all_selectors, inr tt)
  | Some r =>
      if str_falsy r then (all_selectors, inr tt)
      else try_except_log (parse_try_body r all_selectors)
  end.

(** The whole loop over [api_responses]; an exception that escaped an
    iteration would end it. *)
Fixpoint reduce_responses (api_responses : list (option string))
    (all_selectors : pyset) : pyset * (exn + unit) :=
  match api_responses with
  | [] => (all_selectors, inr tt)
  | r :: rest =>
      match parse_response r all_selectors with
      | (s, inl e) => (s, inl e)
      | (s, inr _) => reduce_responses rest s
      end
  end.

(** [CHUNK_SIZE] and [CHUNK_OVERLAP] (lines 27-28). *)
Definition CHUNK_SIZE : Z := 4500.
Definition CHUNK_OVERLAP : Z := 400.

(** What [requests.post], [raise_for_status] and [response.json] do in
    one call of [call_llm_api] (lines 87-89): one of them raises a
    [requests.exceptions.RequestException] (no connection, a timeout, an
    HTTP error status, a body that is no JSON), or another exception is
    raised, or the body is decoded. *)
Inductive exchange : Type :=
  | RequestException
  | OtherRaised
  | Body (data : pyval).

(** The exceptions that leave [call_llm_api]: its handler (line 90)
    catches [RequestException] only. *)
Inductive api_exn : Type :=
  | AttributeError
  | Uncaught.

(** [d.get(key, default)] on the items of a [dict] (its keys are
    distinct). *)
Fixpoint dict_get (key : string) (items : list (string * pyval))
    (default : pyval) : pyval :=
  match items with
  | [] => default
  | (k, v) :: rest =>
      if String.eqb k key then v else dict_get key rest default
  end.

(** [call_llm_api] (lines 84-92).
<<
      try:
          response = requests.post(LLM_API_URL, json={"html": html_chunk}, timeout=120)
          response.raise_for_status()
          return response.json().get("result_text", "")
      except requests.exceptions.RequestException as e:
          main_logger.error(f"LLM API call failed: {e}")
          return None
>>
    Only a [dict] has [get]: on any other decoded body the attribute
    lookup raises [AttributeError], which the handler does not catch.
    The value under ["result_text"] is returned as it is, a string or
    not. *)
Definition call_llm_api (x : exchange) : api_exn + pyval :=
  match x with
  | RequestException => inr PNone
  | OtherRaised => inl Uncaught
  | Body (PDict items) => inr (dict_get "result_text" items (PStr ""))
  | Body _ => inl AttributeError
  end.

(** Among the tasks that raise, the one that ends first: its position
    (counted from [k]) and its exception.  [rank j] is the time at which
    task [j] ends; of two tasks with the same rank the one created first
    counts. *)
Fixpoint first_raised {E A : Type} (rank : nat -> nat) (k : nat)
    (outcomes : list (E + A)) : option (nat * E) :=
  match outcomes with
  | [] => None
  | o :: rest =>
      let later := first_raised rank (S k) rest in
      match o with
      | inr _ => later
      | inl e =>
          match later with
          | Some (j, e') =>
              if (rank j <? rank k)%nat then Some (j, e') else Some (k, e)
          | None => Some (k, e)
          end
      end
  end.

(** The results of the tasks that returned, in the order of the tasks. *)
Definition results_of {E A : Type} (outcomes : list (E + A)) : list A :=
  omap (fun o => match o with inr a => Some a | inl _ => None end) outcomes.

(** [await asyncio.gather(...)] over the tasks (line 108), without
    [return_exceptions]: the list of the results in the order of the
    tasks when every task returns; otherwise the exception of the task
    that raised first is raised where [gather] is awaited. *)
Definition gather {E A : Type} (rank : nat -> nat) (outcomes : list (E + A))
    : E + list A :=
  match first_raised rank 0 outcomes with
  | Some (_, e) => inl e
  | None => inr (results_of outcomes)
  end.

(** [not result_str] for what [call_llm_api] returned: [None], [False],
    zero, the empty string, list and [dict] are false, and so is no
    other value. *)
Definition py_falsy (v : pyval) : bool :=
  match v with
  | PNone => true
  | PBool b => negb b
  | PInt z => z =? 0
  | PFloat f => PrimFloat.eqb f PrimFloat.zero
  | PStr s => str_falsy s
  | PList items => match items with [] => true | _ => false end
  | PDict items => match items with [] => true | _ => false end
  end.

(** One iteration of the loop of lines 111-134 for what [call_llm_api]
    returned.  [re.search] on a value that is no string raises
    [TypeError], inside the [try]. *)
Definition parse_result (result_str : pyval) (all_selectors : pyset)
    : pyset * (exn + unit) :=
  if py_falsy result_str then (all_selectors, inr tt)
  else
    match result_str with
    | PStr r => try_except_log (parse_try_body r all_selectors)
    | _ => try_except_log (all_selectors, inl TypeError)
    end.

(** The loop over [api_responses]. *)
Fixpoint reduce_results (api_responses : list pyval) (all_selectors : pyset)
    : pyset * (exn + unit) :=
  match api_responses with
  | [] => (all_selectors, inr tt)
  | r :: rest =>
      match parse_result r all_selectors with
      | (s, inl e) => (s, inl e)
      | (s, inr _) => reduce_results rest s
      end
  end.

(** The text of a response, when it is one that the parser reads. *)
Definition as_text (v : pyval) : option string :=
  match v with PStr r => Some r | _ => None end.

(** [detect_selectors_in_chunks] (lines 94-137).  [exchanges k] is what
    the HTTP exchange of the task of chunk [k] does, and [rank k] when
    that task ends.  The result is the set, or the exception that
    leaves the function: one of a call, raised by [gather] at line 108,
    which is outside the [try], or one of the loop.  [None] stands for a
    chunk loop that has not returned within the fuel. *)
Definition detect_selectors_in_chunks
    (rank : nat -> nat) (exchanges : nat -> exchange) (full_html : list ascii)
    : option ((api_exn + exn) + pyset) :=
  match chunk_html (S (length full_html)) full_html CHUNK_SIZE CHUNK_OVERLAP with
  | None => None
  | Some html_chunks =>
      let tasks := imap (fun k _ => call_llm_api (exchanges k)) html_chunks in
      match gather rank tasks with
      | inl e => Some (inl (inl e))
      | inr api_responses =>
          match reduce_results api_responses [] with
          | (s, inl e) => Some (inl (inr e))
          | (s, inr _) => Some (inr s)
          end
      end
  end.

(** [detect_selectors] of universal_scraper_agent.py (lines 75-117),
    from the text [call_llm_api] returned (the empty string after a
    request failure). *)
Definition detect_selectors (result_str : string) : list pyval :=
  if str_falsy result_str then []
  else
    match re_search result_str with
    | None => []
    | Some json_str =>
        match json_loads json_str with
        | inl _ => []
        | inr (PDict items) => first_list_value items
        | inr (PList l) => l
        | inr _ => []
        end
    end.

(** The elements of a candidate list that the loop of lines 130-131
    reaches without an exception: those before the first unhashable
    one. *)
Fixpoint hashable_prefix (l : list pyval) : list pyval :=
  match l with
  | [] => []
  | x :: rest => if hashable x then x :: hashable_prefix rest else []
  end.

(** Adding hashable values one by one. *)
Definition add_each (l : list pyval) (s : pyset) : pyset :=
  fold_left (fun acc x => if py_in x acc then acc else acc ++ [x]) l s.

End Parser.

(* ===================================================================== *)
(** * Concrete responses *)
(* ===================================================================== *)

(** JSON text is written below with apostrophes where the response has
    double quotes. *)
Definition dquote : ascii := "034"%char.

Fixpoint jq (s : string) : string :=
  match s with
  | EmptyString => EmptyString
  | String a rest => String (if Ascii.eqb a "'" then dquote else a) (jq rest)
  end.

(** What [json.loads] returns on the texts of the examples, as a table;
    the texts that are not listed are ones it rejects. *)
Definition json_loads_table (known : list (string * pyval)) (s : string)
    : exn + pyval :=
  match find (fun p => String.eqb (fst p) s) known with
  | Some (_, v) => inr v
  | None => inl JSONDecodeError
  end.

Definition example_decodings : list (string * pyval) :=
  [ (jq "{'selectors': ['a.btn', 'div#x']}",
     PDict [("selectors"%string, PList [PStr "a.btn"; PStr "div#x"])]);
    (jq "['x','y','x']", PList [PStr "x"; PStr "y"; PStr "x"]);
    (jq "[1, 'a.btn']", PList [PInt 1; PStr "a.btn"]);
    (jq "[['nested'], 'a.btn']",
     PList [PList [PStr "nested"]; PStr "a.btn"]);
    (jq "['a.btn', {'css': 'div#x'}, 'p.more']",
     PList [PStr "a.btn"; PDict [("css"%string, PStr "div#x")]; PStr "p.more"]);
    (jq "{'count': 2, 'note': 'none'}",
     PDict [("count"%string, PInt 2); ("note"%string, PStr "none")]) ].

Definition json_loads_examples : string -> exn + pyval :=
  json_loads_table example_decodings.

(* ===================================================================== *)
(** * The crawl loop of scraper-agent.py ([main], lines 167-240) *)
(* ===================================================================== *)

(** The variables of [main] that live across iterations, and what the
    run has done so far: the lines appended to [download_log.csv] after
    its header, the requests [session.get(pdf_url)] issued, the results
    of [queue.popleft()], the pages [driver.get] has loaded, and the
    URLs put in the queue ([START_URL] first). *)
Record crawl_state : Type := CrawlState {
  visited_pages : gset string;
  downloaded_pdf_urls : gset string;
  queue : list string;
  download_log : list (string * string);
  fetched : list string;
  dequeued : list string;
  navigated : list string;
  enqueued : list string
}.

(** What the browser and the network do during one iteration.
    - [nav_ok]: [driver.get(url)] returned (it did not raise);
    - [scrape_ok]: lines 185-212 ran without an exception (page source,
      snapshot file, selector detection, clicks, the search for PDF
      anchors and their [href]s);
    - [pdf_hrefs]: [get_attribute('href')] of the elements matching
      [a[href$='.pdf' i]];
    - [fetch_ok u]: the GET of [u], the read and the file write all
      succeeded;
    - [finish_rank u]: when the download of [u] completes among those
      that [gather] runs (their log lines are appended in that order);
    - [link_hrefs]: [get_attribute('href')] of the [a] elements that the
      loop of lines 228-233 reaches (all of them, or those before a
      driver exception). *)
Record page : Type := Page {
  nav_ok : bool;
  scrape_ok : bool;
  pdf_hrefs : list (option string);
  fetch_ok : string -> bool;
  finish_rank : string -> nat;
  link_hrefs : list (option string)
}.

(** [if href:] for the result of [get_attribute]: neither [None] nor the
    empty string. *)
Definition truthy_href (href : option string) : option string :=
  match href with
  | Some h => if str_falsy h then None else Some h
  | None => None
  end.

(** ASCII lower case, and [s.lower().endswith(suffix)]. *)
Definition lower_ascii (a : ascii) : ascii :=
  let n := nat_of_ascii a in
  if ((65 <=? n) && (n <=? 90))%nat then ascii_of_nat (n + 32) else a.

Fixpoint lower (s : string) : string :=
  match s with
  | EmptyString => EmptyString
  | String a rest => String (lower_ascii a) (lower rest)
  end.

Definition endswith (s suffix : string) : bool :=
  let n := String.length s in
  let m := String.length suffix in
  (m <=? n)%nat && String.eqb (substring (n - m) m s) suffix.

(** A document link, as the sibling loops recognise one
    ([href.lower().endswith('.pdf')]). *)
Definition is_document_href (href : string) : bool :=
  endswith (lower href) ".pdf".

Section Crawl.
(** [urlparse(href).netloc], of the standard library; [None] when
    [urlparse] raises [ValueError]. *)
Variable netloc : string -> option string.

Definition initial_state (START_URL : string) : crawl_state :=
  {| visited_pages := ∅; downloaded_pdf_urls := ∅; queue := [START_URL];
     download_log := []; fetched := []; dequeued := []; navigated := [];
     enqueued := [START_URL] |}.

(** [url = queue.popleft()] *)
Definition popleft (url : string) (rest : list string) (st : crawl_state)
    : crawl_state :=
  {| visited_pages := visited_pages st;
     downloaded_pdf_urls := downloaded_pdf_urls st;
     queue := rest;
     download_log := download_log st; fetched := fetched st;
     dequeued := dequeued st ++ [url]; navigated := navigated st;
     enqueued := enqueued st |}.

(** [driver.get(url)] returned; [visited_pages.add(url)] *)
Definition mark_visited (url : string) (st : crawl_state) : crawl_state :=
  {| visited_pages := {[url]} ∪ visited_pages st;
     downloaded_pdf_urls := downloaded_pdf_urls st;
     queue := queue st;
     download_log := download_log st; fetched := fetched st;
     dequeued := dequeued st; navigated := navigated st ++ [url];
     enqueued := enqueued st |}.

(** [queue.append(href)] *)
Definition append_queue (href : string) (st : crawl_state) : crawl_state :=
  {| visited_pages := visited_pages st;
     downloaded_pdf_urls := downloaded_pdf_urls st;
     queue := queue st ++ [href];
     download_log := download_log st; fetched := fetched st;
     dequeued := dequeued st; navigated := navigated st;
     enqueued := enqueued st ++ [href] |}.

(** Lines 215-220: the tasks are created, and each URL is put in
    [downloaded_pdf_urls] before its task is.
<<
      for pdf_url in pdf_links_on_page:
          if pdf_url not in downloaded_pdf_urls:
              downloaded_pdf_urls.add(pdf_url)
              task = download_pdf_concurrently(session, pdf_url, url)
              download_tasks.append(task)
>>  *)
Fixpoint dispatch_downloads (pdf_links_on_page : list string)
    (downloaded : gset string) (download_tasks : list string)
    : gset string * list string :=
  match pdf_links_on_page with
  | [] => (downloaded, download_tasks)
  | pdf_url :: rest =>
      if bool_decide (pdf_url ∈ downloaded) then
        dispatch_downloads rest downloaded download_tasks
      else
        dispatch_downloads rest ({[pdf_url]} ∪ downloaded)
          (download_tasks ++ [pdf_url])
  end.

(** [download_pdf_concurrently(session, pdf_url, source_url)] (lines
    142-162): the line [pdf_url,source_url] goes to the download log
    after a successful fetch and write; any exception is caught, a
    message goes to the console logger, and nothing is appended. *)
Definition download_pdf_concurrently (p : page) (pdf_url source_url : string)
    : list (string * string) :=
  if fetch_ok p pdf_url then [(pdf_url, source_url)] else [].

(** The order in which the downloads of one [gather] complete. *)
Definition finishes_before (p : page) (a b : string) : Prop :=
  (finish_rank p a <= finish_rank p b)%nat.

#[global] Instance finishes_before_dec (p : page) :
  RelDecision (finishes_before p).
Proof. intros a b. unfold finishes_before. apply _. Defined.

(** [await asyncio.gather] over [download_tasks]: every task runs; the
    lines are appended in the order the downloads complete. *)
Definition gather_downloads (p : page) (download_tasks : list string)
    (source_url : string) : list (string * string) :=
  flat_map (fun pdf_url => download_pdf_concurrently p pdf_url source_url)
    (merge_sort (finishes_before p) download_tasks).

(** Lines 208-224 on the state. *)
Definition download_phase (p : page) (url : string) (st : crawl_state)
    : crawl_state :=
  let pdf_links_on_page : gset string :=
    list_to_set (omap truthy_href (pdf_hrefs p)) in
  let '(downloaded, download_tasks) :=
    dispatch_downloads (elements pdf_links_on_page)
      (downloaded_pdf_urls st) [] in
  {| visited_pages := visited_pages st;
     downloaded_pdf_urls := downloaded;
     queue := queue st;
     download_log := download_log st ++ gather_downloads p download_tasks url;
     fetched := fetched st ++ download_tasks;
     dequeued := dequeued st; navigated := navigated st;
     enqueued := enqueued st |}.

(** The body of the loop of lines 228-233 for one anchor; [None] when
    [urlparse] raised.
<<
      href = link.get_attribute('href')
      if href and href.startswith('http'):
          if urlparse(href).netloc == base_domain:
              if href not in visited_pages and href not in queue:
                  queue.append(href)
>>  *)
Definition discover_link (base_domain : string) (href : option string)
    (st : crawl_state) : option crawl_state :=
  match truthy_href href with
  | None => Some st
  | Some h =>
      if String.prefix "http" h then
        match netloc h with
        | None => None
        | Some host =>
            if String.eqb host base_domain then
              if bool_decide (h ∉ visited_pages st)
                 && bool_decide (h ∉ queue st)
              then Some (append_queue h st)
              else Some st
            else Some st
        end
      else Some st
  end.

(** The loop over the anchors; the exception of one anchor ends it (the
    handler of line 235 then logs, and the crawl goes on with what was
    queued so far). *)
Fixpoint discover_links (base_domain : string) (hrefs : list (option string))
    (st : crawl_state) : crawl_state :=
  match hrefs with
  | [] => st
  | href :: rest =>
      match discover_link base_domain href st with
      | None => st
      | Some st' => discover_links base_domain rest st'
      end
  end.

(** One iteration of [while queue:] (lines 176-236); with an empty queue
    the loop has ended and nothing changes. *)
Definition crawl_step (base_domain : string) (st : crawl_state) (p : page)
    : crawl_state :=
  match queue st with
  | [] => st
  | url :: rest =>
      let st1 := popleft url rest st in
      if bool_decide (url ∈ visited_pages st1) then st1
      else if negb (nav_ok p) then st1
      else
        let st2 := mark_visited url st1 in
        if negb (scrape_ok p) then st2
        else discover_links base_domain (link_hrefs p) (download_phase p url st2)
  end.

(** The iterations of a run, one [page] each. *)
Definition crawl (base_domain START_URL : string) (pages : list page)
    : crawl_state :=
  fold_left (crawl_step base_domain) pages (initial_state START_URL).

(** [main]: [base_domain = urlparse(START_URL).netloc], then the loop. *)
Definition main (START_URL : string) (pages : list page) : option crawl_state :=
  match netloc START_URL with
  | None => None
  | Some base_domain => Some (crawl base_domain START_URL pages)
  end.

End Crawl.

(* ===================================================================== *)
(** * [urlparse(url).netloc] on plain URLs *)
(* ===================================================================== *)

(** The part of [urllib.parse.urlsplit] that computes [netloc], for the
    URLs of the examples: ASCII, no leading blank or control character.
    A scheme is a letter followed by letters, digits, [+], [-] and [.]
    up to the first colon; the authority follows [//] and ends before
    the first [/], [?] or [#].  A bracket without its partner makes
    [urlsplit] raise [ValueError]. *)
Definition is_alpha (a : ascii) : bool :=
  let n := nat_of_ascii a in
  ((65 <=? n) && (n <=? 90) || (97 <=? n) && (n <=? 122))%nat.

Definition is_scheme_char (a : ascii) : bool :=
  let n := nat_of_ascii a in
  is_alpha a || ((48 <=? n) && (n <=? 57))%nat
  || Ascii.eqb a "+" || Ascii.eqb a "-" || Ascii.eqb a ".".

Fixpoint all_chars (f : ascii -> bool) (s : string) : bool :=
  match s with
  | EmptyString => true
  | String a rest => f a && all_chars f rest
  end.

Fixpoint has_char (c : ascii) (s : string) : bool :=
  match s with
  | EmptyString => false
  | String a rest => Ascii.eqb a c || has_char c rest
  end.

Fixpoint take_until (stop : ascii -> bool) (s : string) : string :=
  match s with
  | EmptyString => EmptyString
  | String a rest => if stop a then EmptyString else String a (take_until stop rest)
  end.

Definition after_scheme (url : string) : string :=
  match String.index 0 ":" url, url with
  | Some i, String a _ =>
      if (0 <? i)%nat && is_alpha a && all_chars is_scheme_char (substring 0 i url)
      then substring (S i) (String.length url - S i) url
      else url
  | _, _ => url
  end.

Definition netloc_plain (url : string) : option string :=
  let rest := after_scheme url in
  if String.prefix "//" rest then
    let host :=
      take_until (fun a => Ascii.eqb a "/" || Ascii.eqb a "?" || Ascii.eqb a "#")
        (substring 2 (String.length rest - 2) rest) in
    if xorb (has_char "[" host) (has_char "]" host) then None else Some host
  else Some EmptyString.

(* ===================================================================== *)
(** * The sibling loop of universal_scraper_agent.py *)
(* ===================================================================== *)

(** The condition of line 214 of universal_scraper_agent.py:
    [href and href.startswith('http') and not
     href.lower().endswith(('.pdf', '.zip', '.jpg', '.png'))]. *)
Definition universal_link_filter (href : option string) : bool :=
  match truthy_href href with
  | None => false
  | Some h =>
      String.prefix "http" h
      && negb (endswith (lower h) ".pdf" || endswith (lower h) ".zip"
               || endswith (lower h) ".jpg" || endswith (lower h) ".png")
  end.

(* ===================================================================== *)
(** * Invariants of the crawl loop *)
(* ===================================================================== *)

(** The queue holds no URL twice and no visited URL; the URLs leave the
    queue in the order they entered it; the pages loaded are the visited
    ones, each loaded once. *)
Definition frontier_inv (st : crawl_state) : Prop :=
  NoDup (queue st) /\
  (forall u, u ∈ queue st -> u ∉ visited_pages st) /\
  enqueued st = dequeued st ++ queue st /\
  NoDup (navigated st) /\
  (forall u, u ∈ navigated st <-> u ∈ visited_pages st).

(** An [href] that the link loop of scraper-agent.py may queue. *)
Definition in_domain_href (netloc : string -> option string)
    (base_domain u : string) : Prop :=
  String.prefix "http" u = true /\ netloc u = Some base_domain.

(** Each URL is fetched at most once, the fetched URLs are those of
    [downloaded_pdf_urls], and each has at most one line in the log. *)
Definition download_inv (st : crawl_state) : Prop :=
  NoDup (fetched st) /\
  (forall u, u ∈ fetched st <-> u ∈ downloaded_pdf_urls st) /\
  NoDup (fst <$> download_log st) /\
  (forall u, u ∈ (fst <$> download_log st) -> u ∈ fetched st).

(** Visited pages were enqueued, and log lines name visited pages. *)
Definition provenance_inv (st : crawl_state) : Prop :=
  (forall u, u ∈ visited_pages st -> u ∈ enqueued st) /\
  (forall r, r ∈ download_log st -> snd r ∈ visited_pages st).

(* ===================================================================== *)
(** * Concrete pages *)
(* ===================================================================== *)

(** [START_URL] (line 20) and its [netloc]. *)
Definition START_URL : string := "https://www.govinfo.gov/app/collection/cfr/".
Definition govinfo : string := "www.govinfo.gov".

Definition cfr_pdf : string := "https://www.govinfo.gov/content/pkg/CFR-2024-title1.pdf".
Definition cfr_help : string := "https://www.govinfo.gov/help/cfr".
Definition cfr_about : string := "https://www.govinfo.gov/about".

(** The start page shows one PDF anchor and two more anchors of the
    domain, and an anchor of another domain; every download succeeds. *)
Definition start_page : page :=
  {| nav_ok := true; scrape_ok := true;
     pdf_hrefs := [Some cfr_pdf];
     fetch_ok := fun _ => true;
     finish_rank := fun _ => 0%nat;
     link_hrefs := [Some cfr_help; Some "https://other.example/b"%string;
                    Some cfr_pdf; Some cfr_help; None] |}.

(** The same page when the download of the PDF fails. *)
Definition start_page_fetch_fails : page :=
  {| nav_ok := true; scrape_ok := true;
     pdf_hrefs := [Some cfr_pdf];
     fetch_ok := fun _ => false;
     finish_rank := fun _ => 0%nat;
     link_hrefs := [Some cfr_help] |}.

(** A page that links to two pages of the domain, a page whose
    navigation raises, and a page that links back. *)
Definition hub_page : page :=
  {| nav_ok := true; scrape_ok := true; pdf_hrefs := [];
     fetch_ok := fun _ => true; finish_rank := fun _ => 0%nat;
     link_hrefs := [Some cfr_help; Some cfr_about] |}.

Definition unreachable_page : page :=
  {| nav_ok := false; scrape_ok := true; pdf_hrefs := [];
     fetch_ok := fun _ => true; finish_rank := fun _ => 0%nat;
     link_hrefs := [] |}.

Definition back_link_page : page :=
  {| nav_ok := true; scrape_ok := true; pdf_hrefs := [Some cfr_pdf];
     fetch_ok := fun _ => true; finish_rank := fun _ => 0%nat;
     link_hrefs := [Some cfr_help; Some START_URL] |}.

(* ===================================================================== *)
(** * Text that looks like it holds JSON *)
(* ===================================================================== *)

(** A string holds an object- or array-looking substring when an opening
    brace is followed, anywhere later, by a closing brace, or an opening
    bracket by a closing bracket. *)
Definition json_looking (s : string) : Prop :=
  exists i j : nat,
    (i < j)%nat /\
    ((String.get i s = Some "{"%char /\ String.get j s = Some "}"%char) \/
     (String.get i s = Some "["%char /\ String.get j s = Some "]"%char)).

(* ===================================================================== *)
(** * File names (scraper-agent.py, lines 149-152 and 188-189) *)
(* ===================================================================== *)

(** [DOWNLOAD_DIR] and [SCRAPED_PAGES_DIR] (lines 21-22). *)
Definition DOWNLOAD_DIR : string := "./pdfs".
Definition SCRAPED_PAGES_DIR : string := "./scraped_pages".

(** [s.split(c)[-1]]: what follows the last [c], the whole string when
    there is none. *)
Fixpoint after_last (c : ascii) (s : string) : string :=
  match s with
  | EmptyString => EmptyString
  | String a rest =>
      if has_char c rest then after_last c rest
      else if Ascii.eqb a c then rest
      else String a rest
  end.

(** [s.split(c)[0]]: what precedes the first [c]. *)
Definition before_first (c : ascii) (s : string) : string :=
  take_until (Ascii.eqb c) s.

(** The character class of the pattern that [re.sub] replaces by an
    underscore: backslash, slash, star, question mark, colon, double
    quote, angle brackets and bar. *)
Definition illegal_char (a : ascii) : bool :=
  Ascii.eqb a "\" || Ascii.eqb a "/" || Ascii.eqb a "*" || Ascii.eqb a "?"
  || Ascii.eqb a ":" || Ascii.eqb a dquote || Ascii.eqb a "<"
  || Ascii.eqb a ">" || Ascii.eqb a "|".

Fixpoint sanitize (s : string) : string :=
  match s with
  | EmptyString => EmptyString
  | String a rest =>
      String (if illegal_char a then "_"%char else a) (sanitize rest)
  end.

(** [os.path.join(a, b)] of [posixpath] for two components. *)
Definition os_path_join (a b : string) : string :=
  if String.prefix "/" b then b
  else if str_falsy a || endswith a "/" then (a ++ b)%string
  else (a ++ "/" ++ b)%string.

(** Lines 149-151: the name under which a document is stored.
<<
      file_name = pdf_url.split('/')[-1].split('?')[0]
      if not file_name: file_name = "downloaded_file.pdf"
      if not file_name.lower().endswith('.pdf'): file_name += ".pdf"
>>  *)
Definition pdf_file_name (pdf_url : string) : string :=
  let file_name := before_first "?" (after_last "/" pdf_url) in
  let file_name :=
    if str_falsy file_name then "downloaded_file.pdf"%string else file_name in
  if endswith (lower file_name) ".pdf" then file_name
  else (file_name ++ ".pdf")%string.

(** Line 152: [os.path.join(DOWNLOAD_DIR, re.sub(..., "_", file_name))]. *)
Definition pdf_file_path (pdf_url : string) : string :=
  os_path_join DOWNLOAD_DIR (sanitize (pdf_file_name pdf_url)).

(** Lines 188-189: the file of a page snapshot. *)
Definition safe_filename (url : string) : string :=
  (sanitize url ++ ".html")%string.

Definition snapshot_path (url : string) : string :=
  os_path_join SCRAPED_PAGES_DIR (safe_filename url).

(* ===================================================================== *)
(** * What the responses contribute *)
(* ===================================================================== *)

(** The string selectors of a set. *)
Definition strings_of (s : pyset) : list string :=
  omap (fun v => match v with PStr a => Some a | _ => None end) s.

(** The candidates of one oracle answer that reach [all_selectors.add]
    without an exception; nothing for an answer that is [None]. *)
Definition response_candidates (json_loads : string -> exn + pyval)
    (result_str : option string) : list pyval :=
  match result_str with
  | None => []
  | Some r => hashable_prefix (detect_selectors json_loads r)
  end.

(* ===================================================================== *)
(** * The crawl loop of universal_scraper_agent.py ([main], lines 162-227) *)
(* ===================================================================== *)

(** [MAX_PAGES] and [MAX_PDFS] (lines 19-20). *)
Definition MAX_PAGES : nat := 100.
Definition MAX_PDFS : nat := 500.

(** The variables of [main], and what the run has done: the calls
    [requests.get(pdf_url)], the files written (path and URL), the URLs
    put in the queue and the pages loaded. *)
Record ustate : Type := UState {
  u_visited_pages : gset string;
  u_downloaded_pdfs : gset string;
  u_queue : list string;
  u_requests : list string;
  u_files : list (string * string);
  u_enqueued : list string;
  u_navigated : list string
}.

(** How the download of one document ends (lines 196-208): the file was
    written; [requests] raised a [RequestException] (connection, timeout
    or error status), which the inner handler logs; or something else
    was raised (the file could not be written), which only the handler
    of the page catches. *)
Inductive fetch_outcome : Type :=
  | Fetched
  | RequestError
  | OtherError.

(** What the browser and the network do during one iteration.
    [u_scrape_ok]: reading the page source and asking for selectors
    raised nothing.  [u_pdf_hrefs]: the [href]s that [click_and_download]
    collected (it catches every exception of its own).  [u_link_hrefs]:
    the [href]s of the anchors the link loop reaches. *)
Record upage : Type := UPage {
  u_nav_ok : bool;
  u_scrape_ok : bool;
  u_pdf_hrefs : list (option string);
  u_fetch : string -> fetch_outcome;
  u_link_hrefs : list (option string)
}.

(** Lines 199-203: the file of a document. *)
Definition universal_file_path (pdf_url : string) : string :=
  let file_name := after_last "/" pdf_url in
  let file_name :=
    if endswith (lower file_name) ".pdf" then file_name
    else (file_name ++ ".pdf")%string in
  os_path_join DOWNLOAD_DIR file_name.

Definition u_initial (START : string) : ustate :=
  {| u_visited_pages := ∅; u_downloaded_pdfs := ∅; u_queue := [START];
     u_requests := []; u_files := []; u_enqueued := [START];
     u_navigated := [] |}.

Definition u_popleft (rest : list string) (st : ustate) : ustate :=
  {| u_visited_pages := u_visited_pages st;
     u_downloaded_pdfs := u_downloaded_pdfs st;
     u_queue := rest;
     u_requests := u_requests st; u_files := u_files st;
     u_enqueued := u_enqueued st; u_navigated := u_navigated st |}.

Definition u_mark_visited (url : string) (st : ustate) : ustate :=
  {| u_visited_pages := {[url]} ∪ u_visited_pages st;
     u_downloaded_pdfs := u_downloaded_pdfs st;
     u_queue := u_queue st;
     u_requests := u_requests st; u_files := u_files st;
     u_enqueued := u_enqueued st; u_navigated := u_navigated st ++ [url] |}.

(** [requests.get(pdf_url, timeout=30)] was called. *)
Definition u_request (pdf_url : string) (st : ustate) : ustate :=
  {| u_visited_pages := u_visited_pages st;
     u_downloaded_pdfs := u_downloaded_pdfs st;
     u_queue := u_queue st;
     u_requests := u_requests st ++ [pdf_url]; u_files := u_files st;
     u_enqueued := u_enqueued st; u_navigated := u_navigated st |}.

(** The file was written; [downloaded_pdfs.add(pdf_url)]. *)
Definition u_store (pdf_url : string) (st : ustate) : ustate :=
  {| u_visited_pages := u_visited_pages st;
     u_downloaded_pdfs := {[pdf_url]} ∪ u_downloaded_pdfs st;
     u_queue := u_queue st;
     u_requests := u_requests st;
     u_files := u_files st ++ [(universal_file_path pdf_url, pdf_url)];
     u_enqueued := u_enqueued st; u_navigated := u_navigated st |}.

Definition u_append (href : string) (st : ustate) : ustate :=
  {| u_visited_pages := u_visited_pages st;
     u_downloaded_pdfs := u_downloaded_pdfs st;
     u_queue := u_queue st ++ [href];
     u_requests := u_requests st; u_files := u_files st;
     u_enqueued := u_enqueued st ++ [href]; u_navigated := u_navigated st |}.

(** Lines 192-208: the documents are fetched one after the other; a URL
    enters [downloaded_pdfs] only after its file was written.  The
    boolean says whether the loop ended without an exception.
<<
      for pdf_url in new_pdfs:
          if pdf_url not in downloaded_pdfs:
              try:
                  pdf_response = requests.get(pdf_url, timeout=30)
                  pdf_response.raise_for_status()
                  ...
                  with open(file_path, 'wb') as f:
                      f.write(pdf_response.content)
                  downloaded_pdfs.add(pdf_url)
              except requests.exceptions.RequestException as e:
                  logger.error(...)
>>  *)
Fixpoint universal_downloads (p : upage) (new_pdfs : list string)
    (st : ustate) : ustate * bool :=
  match new_pdfs with
  | [] => (st, true)
  | pdf_url :: rest =>
      if bool_decide (pdf_url ∈ u_downloaded_pdfs st) then
        universal_downloads p rest st
      else
        match u_fetch p pdf_url with
        | Fetched =>
            universal_downloads p rest (u_store pdf_url (u_request pdf_url st))
        | RequestError => universal_downloads p rest (u_request pdf_url st)
        | OtherError => (u_request pdf_url st, false)
        end
  end.

(** Lines 211-216: the link loop.
<<
      if href and href.startswith('http') and not
              href.lower().endswith(('.pdf', '.zip', '.jpg', '.png')):
          if href not in visited_pages and href not in queue:
              queue.append(href)
>>  *)
Definition universal_link (href : option string) (st : ustate) : ustate :=
  match href with
  | Some h =>
      if universal_link_filter href
         && bool_decide (h ∉ u_visited_pages st)
         && bool_decide (h ∉ u_queue st)
      then u_append h st
      else st
  | None => st
  end.

Definition universal_links (hrefs : list (option string)) (st : ustate)
    : ustate :=
  fold_left (fun acc href => universal_link href acc) hrefs st.

(** One evaluation of the loop condition and, when it holds, one
    iteration (lines 170-219).  When the queue is empty or a limit is
    reached the loop is over and nothing changes. *)
Definition universal_step (st : ustate) (p : upage) : ustate :=
  match u_queue st with
  | [] => st
  | url :: rest =>
      if (size (u_visited_pages st) <? MAX_PAGES)%nat
         && (size (u_downloaded_pdfs st) <? MAX_PDFS)%nat
      then
        let st1 := u_popleft rest st in
        if bool_decide (url ∈ u_visited_pages st1) then st1
        else if negb (u_nav_ok p) then st1
        else
          let st2 := u_mark_visited url st1 in
          if negb (u_scrape_ok p) then st2
          else
            let new_pdfs : gset string :=
              list_to_set (omap truthy_href (u_pdf_hrefs p)) in
            match universal_downloads p (elements new_pdfs) st2 with
            | (st3, false) => st3
            | (st3, true) => universal_links (u_link_hrefs p) st3
            end
      else st
  end.

Definition universal_crawl (START : string) (pages : list upage) : ustate :=
  fold_left universal_step pages (u_initial START).

(** The invariants of this loop. *)
Definition u_frontier_inv (st : ustate) : Prop :=
  NoDup (u_queue st) /\
  (forall u, u ∈ u_queue st -> u ∉ u_visited_pages st) /\
  NoDup (u_navigated st) /\
  (forall u, u ∈ u_navigated st <-> u ∈ u_visited_pages st) /\
  (size (u_visited_pages st) <= MAX_PAGES)%nat.

Definition u_download_inv (st : ustate) : Prop :=
  NoDup (snd <$> u_files st) /\
  (forall u, u ∈ u_downloaded_pdfs st <-> u ∈ (snd <$> u_files st)) /\
  (forall u, u ∈ (snd <$> u_files st) -> u ∈ u_requests st).

(** A page of the universal crawl for the examples: two document
    anchors, of which the second cannot be fetched, and three links. *)
Definition universal_page : upage :=
  {| u_nav_ok := true; u_scrape_ok := true;
     u_pdf_hrefs := [Some cfr_pdf; Some "https://example.org/missing.pdf"%string];
     u_fetch := fun u => if String.eqb u cfr_pdf then Fetched else RequestError;
     u_link_hrefs := [Some cfr_help; Some cfr_pdf;
                      Some "https://example.org/logo.PNG"%string] |}.

(* ===================================================================== *)
(** * A site whose every page links to one more page *)
(* ===================================================================== *)

(** The longest file name that the file systems of Linux take, in
    bytes; [aiofiles.open] raises [OSError] (file name too long) for a
    longer one. *)
Definition NAME_MAX : nat := 255.

(** Whether the snapshot of a page (lines 188-190) can be written as far
    as the length of its name goes. *)
Definition snapshot_name_fits (url : string) : bool :=
  (String.length (safe_filename url) <=? NAME_MAX)%nat.

(** Page [k] of the site: [http://h/], [http://h/a], [http://h/aa], ...
    Every page loads; its snapshot is written when the name fits, and
    the page then shows one anchor, to the next page. *)
Fixpoint pad (k : nat) : string :=
  match k with
  | O => EmptyString
  | S k' => String "a" (pad k')
  end.

Definition chain_url (k : nat) : string := ("http://h/" ++ pad k)%string.

Definition chain_page (k : nat) : page :=
  {| nav_ok := true; scrape_ok := snapshot_name_fits (chain_url k);
     pdf_hrefs := [];
     fetch_ok := fun _ => true; finish_rank := fun _ => 0%nat;
     link_hrefs := [Some (chain_url (S k))] |}.

Definition chain_pages (n : nat) : list page := map chain_page (seq 0 n).

(* ===================================================================== *)
(** * Facts about slicing *)
(* ===================================================================== *)

Section PySeqFacts.
Context {A : Type}.
Implicit Types (s : list A) (i j n : Z).

Lemma len_nonneg s : 0 <= len s.
Proof. unfold len. lia. Qed.

Lemma len_nil_iff s : len s = 0 <-> s = [].
Proof.
  unfold len. split.
  - destruct s; [done | simpl; lia].
  - intros ->. done.
Qed.

Lemma py_index_inside n i : 0 <= i <= n -> py_index n i = i.
Proof. unfold py_index. intros H. destruct (Z.ltb_spec i 0); lia. Qed.

Lemma py_index_above n i : 0 <= n <= i -> py_index n i = n.
Proof. unfold py_index. intros H. destruct (Z.ltb_spec i 0); lia. Qed.

(** A slice with non-negative bounds is [drop] then [take]. *)
Lemma py_slice_nonneg s i j :
  0 <= i -> i <= j ->
  py_slice s i j = take (Z.to_nat (j - i)) (drop (Z.to_nat i) s).
Proof.
  intros Hi Hij. unfold py_slice.
  pose proof (len_nonneg s) as Hn.
  destruct (Z_le_gt_dec i (len s)) as [Hin | Hin].
  - rewrite (py_index_inside _ i) by lia.
    destruct (Z_le_gt_dec j (len s)) as [Hjn | Hjn].
    + rewrite (py_index_inside _ j) by lia. done.
    + rewrite (py_index_above _ j) by lia.
      rewrite !take_ge; [done | |]; rewrite length_drop; unfold len in *; lia.
  - rewrite (py_index_above _ i), (py_index_above _ j) by lia.
    rewrite !drop_ge by (unfold len in *; lia).
    by rewrite !take_nil.
Qed.

Lemma py_slice_length s i j :
  0 <= i -> i <= j ->
  len (py_slice s i j) = Z.max 0 (Z.min j (len s) - i).
Proof.
  intros Hi Hij. rewrite py_slice_nonneg by done.
  unfold len. rewrite length_take, length_drop. lia.
Qed.

Lemma py_slice_whole s j : len s <= j -> py_slice s 0 j = s.
Proof.
  intros Hj. pose proof (len_nonneg s).
  rewrite py_slice_nonneg by lia. simpl.
  apply take_ge. unfold len in *. lia.
Qed.

End PySeqFacts.

(* ===================================================================== *)
(** * The chunk loop: closed form, termination, divergence *)
(* ===================================================================== *)

Section ChunkLoop.
Context {A : Type}.
Implicit Types (html : list A) (size overlap start : Z) (fuel : nat).

Lemma ceil_div_bounds n d :
  0 < d -> 0 <= n ->
  0 <= ceil_div n d /\ n <= ceil_div n d * d < n + d.
Proof.
  intros Hd Hn. unfold ceil_div.
  pose proof (Z.div_mod (n + d - 1) d ltac:(lia)) as Hdm.
  pose proof (Z.mod_pos_bound (n + d - 1) d Hd) as Hr.
  assert (0 <= (n + d - 1) / d) by (apply Z.div_pos; lia).
  nia.
Qed.

Lemma ceil_div_zero d : 0 < d -> ceil_div 0 d = 0.
Proof.
  intros Hd. unfold ceil_div. apply Z.div_small. lia.
Qed.

Lemma ceil_div_unique n d c :
  0 < d -> n <= c * d < n + d -> ceil_div n d = c.
Proof.
  intros Hd Hc. unfold ceil_div.
  symmetry. apply (Z.div_unique _ _ _ (n + d - 1 - c * d)); lia.
Qed.

Lemma chunk_loop_exit fuel html size overlap start chunks :
  len html <= start ->
  chunk_loop fuel html size overlap start chunks = Some chunks.
Proof.
  intros Hs. destruct fuel; simpl;
    destruct (Z.ltb_spec start (len html)); done || lia.
Qed.

Lemma chunk_loop_iter fuel html size overlap start chunks :
  start < len html ->
  chunk_loop (S fuel) html size overlap start chunks =
  chunk_loop fuel html size overlap (start + (size - overlap))
    (chunks ++ [py_slice html start (start + size)]).
Proof.
  intros Hs. simpl. destruct (Z.ltb_spec start (len html)); done || lia.
Qed.

Lemma chunk_start_succ size overlap (k : nat) :
  chunk_start size overlap (Z.of_nat k) + (size - overlap) =
  chunk_start size overlap (Z.of_nat (S k)).
Proof. unfold chunk_start. lia. Qed.

(** [r] more iterations from the [k0]-th window on. *)
Lemma chunk_loop_windows html size overlap (r : nat) :
  forall (k0 : nat) fuel chunks,
    (r <= fuel)%nat ->
    len html <= chunk_start size overlap (Z.of_nat (k0 + r)) ->
    (forall k : nat, (k0 <= k < k0 + r)%nat ->
                     chunk_start size overlap (Z.of_nat k) < len html) ->
    chunk_loop fuel html size overlap
      (chunk_start size overlap (Z.of_nat k0)) chunks =
    Some (chunks ++
          map (fun k : nat => chunk_at html size overlap (Z.of_nat k))
              (seq k0 r)).
Proof.
  induction r as [| r IH]; intros k0 fuel chunks Hfuel Hend Hin.
  - rewrite Nat.add_0_r in Hend. rewrite chunk_loop_exit by done.
    simpl. by rewrite app_nil_r.
  - destruct fuel as [| fuel]; [lia |].
    rewrite chunk_loop_iter by (apply Hin; lia).
    rewrite chunk_start_succ.
    rewrite (IH (S k0) fuel); [ | lia | | ].
    + simpl. by rewrite <- app_assoc.
    + by replace (S k0 + r)%nat with (k0 + S r)%nat by lia.
    + intros k Hk. apply Hin. lia.
Qed.

Lemma chunk_html_windows fuel html size overlap :
  overlap < size ->
  (Z.to_nat (chunk_count html size overlap) <= fuel)%nat ->
  chunk_html fuel html size overlap = Some (chunk_windows html size overlap).
Proof.
  intros Hcfg Hfuel. unfold chunk_html, chunk_windows.
  pose proof (len_nonneg html) as Hn.
  destruct (ceil_div_bounds (len html) (size - overlap)) as (Hc0 & Hc1 & Hc2);
    [lia | done |].
  fold (chunk_count html size overlap) in Hc0, Hc1, Hc2.
  change 0 with (chunk_start size overlap (Z.of_nat 0)) at 1.
  rewrite (chunk_loop_windows html size overlap
             (Z.to_nat (chunk_count html size overlap)) 0 fuel []); try done.
  - unfold chunk_start. simpl. rewrite Z2Nat.id by done. lia.
  - intros k Hk. unfold chunk_start. nia.
Qed.

Lemma chunk_windows_length html size overlap :
  length (chunk_windows html size overlap) =
  Z.to_nat (chunk_count html size overlap).
Proof. unfold chunk_windows. by rewrite length_map, length_seq. Qed.

Lemma chunk_windows_lookup html size overlap (k : nat) :
  (k < Z.to_nat (chunk_count html size overlap))%nat ->
  chunk_windows html size overlap !! k =
  Some (chunk_at html size overlap (Z.of_nat k)).
Proof.
  intros Hk. unfold chunk_windows.
  rewrite list_lookup_fmap, lookup_seq_lt by done. done.
Qed.

(** With [size <= overlap] the offset never moves forward, so on a
    non-empty input the loop condition stays true. *)
Lemma chunk_loop_stuck html size overlap :
  size <= overlap ->
  forall fuel start chunks,
    start < len html ->
    chunk_loop fuel html size overlap start chunks = None.
Proof.
  intros Hcfg. induction fuel as [| fuel IH]; intros start chunks Hs.
  - simpl. destruct (Z.ltb_spec start (len html)); done || lia.
  - rewrite chunk_loop_iter by done. apply IH. lia.
Qed.

End ChunkLoop.

(* ===================================================================== *)
(** * Chunk splitter: termination and the number of chunks *)
(* ===================================================================== *)

Section ChunkCount.
Context {A : Type}.
Implicit Types (html : list A) (size overlap : Z).

Lemma chunk_count_nonneg html size overlap :
  overlap < size -> 0 <= chunk_count html size overlap.
Proof.
  intros Hcfg. pose proof (len_nonneg html).
  apply (ceil_div_bounds (len html) (size - overlap)); lia.
Qed.

Lemma chunk_count_nil size overlap :
  overlap < size -> chunk_count (@nil A) size overlap = 0.
Proof. intros Hcfg. unfold chunk_count. apply ceil_div_zero. lia. Qed.

Lemma chunk_count_pos html size overlap :
  overlap < size -> 0 < len html -> 0 < chunk_count html size overlap.
Proof.
  intros Hcfg Hn.
  destruct (ceil_div_bounds (len html) (size - overlap)) as (? & ? & ?);
    [lia | lia |].
  fold (chunk_count html size overlap) in *. nia.
Qed.

Lemma chunk_windows_nil size overlap :
  overlap < size -> chunk_windows (@nil A) size overlap = [].
Proof.
  intros Hcfg. unfold chunk_windows. by rewrite chunk_count_nil.
Qed.

End ChunkCount.

(** C10. Under a valid configuration ([size > overlap >= 0]) the chunk
    loop terminates: every iteration moves the start offset forward by
    [size - overlap >= 1], so with enough fuel (the number of windows)
    the function returns; the list it returns has at most
    [ceil(len(html) / (size - overlap))] chunks, and none for the empty
    string. *)
Theorem chunk_html_terminates {A : Type} (html : list A) (size overlap : Z) :
  0 <= overlap -> overlap < size ->
  (forall fuel start chunks,
      start < len html ->
      start < start + (size - overlap) /\
      chunk_loop (S fuel) html size overlap start chunks =
      chunk_loop fuel html size overlap (start + (size - overlap))
        (chunks ++ [py_slice html start (start + size)])) /\
  exists chunks,
    (forall fuel, (Z.to_nat (chunk_count html size overlap) <= fuel)%nat ->
                  chunk_html fuel html size overlap = Some chunks) /\
    len chunks <= ceil_div (len html) (size - overlap) /\
    (html = [] -> chunks = []).
Proof.
  intros Hov Hcfg. split.
  - intros fuel start chunks Hs. split; [lia |].
    by apply chunk_loop_iter.
  - exists (chunk_windows html size overlap). split; [| split].
    + intros fuel Hfuel. by apply chunk_html_windows.
    + unfold len at 1. rewrite chunk_windows_length.
      fold (chunk_count html size overlap).
      pose proof (chunk_count_nonneg html size overlap Hcfg). lia.
    + intros ->. by apply chunk_windows_nil.
Qed.

Lemma chunk_html_terminates_witness :
  0 <= 400 /\ 400 < 4500 /\
  exists chunks, chunk_html 3 (chars "<html></html>") 4500 400 = Some chunks.
Proof.
  split; [lia | split; [lia |]].
  destruct (chunk_html_terminates (chars "<html></html>") 4500 400)
    as (_ & chunks & Hret & _); [lia | lia |].
  exists chunks. apply Hret. vm_compute. lia.
Defined.

(* ===================================================================== *)
(** * Chunk splitter: short inputs *)
(* ===================================================================== *)

(** C3, as stated, fails: a string no longer than [size] but longer than
    [size - overlap] gives a second chunk (a suffix of the first), and
    the empty string gives no chunk at all. *)
Lemma chunk_html_short_input_two_chunks :
  len (chars "abcd") <= 4 /\
  chunk_html 8 (chars "abcd") 4 2 = Some [chars "abcd"; chars "cd"] /\
  len (chars "") <= 4 /\
  chunk_html 8 (chars "") 4 2 = Some [].
Proof. vm_compute. repeat split; discriminate. Qed.

(** C3 (amended). For [size > overlap >= 0] and [len(html) <= size] the
    splitter returns; what it returns is the one chunk [html] exactly
    when [0 < len(html) <= size - overlap]; for every non-empty [html]
    the first chunk is the whole string; for the empty string there is
    no chunk. *)
Theorem chunk_html_single_chunk {A : Type} (html : list A) (size overlap : Z) :
  0 <= overlap -> overlap < size -> len html <= size ->
  exists chunks,
    (forall fuel, (Z.to_nat (chunk_count html size overlap) <= fuel)%nat ->
                  chunk_html fuel html size overlap = Some chunks) /\
    (chunks = [html] <-> 0 < len html <= size - overlap) /\
    (0 < len html -> chunks !! 0%nat = Some html) /\
    (html = [] -> chunks = []).
Proof.
  intros Hov Hcfg Hshort.
  exists (chunk_windows html size overlap).
  pose proof (len_nonneg html) as Hn.
  assert (Hfirst : chunk_at html size overlap (Z.of_nat 0) = html).
  { unfold chunk_at, chunk_start. simpl. by apply py_slice_whole. }
  split; [| split; [| split]].
  - intros fuel Hfuel. by apply chunk_html_windows.
  - split.
    + intros Heq.
      assert (Hlen : chunk_count html size overlap = 1).
      { pose proof (chunk_windows_length html size overlap) as Hl.
        rewrite Heq in Hl. simpl in Hl.
        pose proof (chunk_count_nonneg html size overlap Hcfg). lia. }
      destruct (ceil_div_bounds (len html) (size - overlap)) as (_ & Hc);
        [lia | lia |].
      fold (chunk_count html size overlap) in Hc. rewrite Hlen in Hc. lia.
    + intros Hone.
      assert (Hlen : chunk_count html size overlap = 1).
      { apply ceil_div_unique; lia. }
      unfold chunk_windows. rewrite Hlen. simpl. by rewrite Hfirst.
  - intros Hpos.
    rewrite chunk_windows_lookup, Hfirst; [done |].
    pose proof (chunk_count_pos html size overlap Hcfg Hpos). lia.
  - intros ->. by apply chunk_windows_nil.
Qed.

Lemma chunk_html_single_chunk_witness :
  0 <= 400 /\ 400 < 4500 /\ len (chars "<a href=x.pdf>") <= 4500 /\
  chunk_html 1 (chars "<a href=x.pdf>") 4500 400 =
  Some [chars "<a href=x.pdf>"].
Proof.
  split; [lia | split; [lia | split; [vm_compute; discriminate |]]].
  destruct (chunk_html_single_chunk (chars "<a href=x.pdf>") 4500 400)
    as (chunks & Hret & Hone & _); [lia | lia | vm_compute; discriminate |].
  rewrite (Hret 1%nat) by (vm_compute; lia).
  f_equal. apply Hone. vm_compute. split; [done | discriminate].
Defined.

(* ===================================================================== *)
(** * Chunk splitter: invalid configurations *)
(* ===================================================================== *)

(** C4, as stated, fails: [chunk_html] has no check of its arguments.
    With [size <= overlap] the call on the empty string returns normally
    (the empty list), and on a non-empty string the loop is still
    running after any number of iterations. *)
Lemma chunk_html_invalid_config_not_rejected :
  5 <= 5 /\ chunk_html 0 (chars "") 5 5 = Some [] /\
  4 <= 9 /\ chunk_html 1000 (chars "ab") 4 9 = None.
Proof. vm_compute. repeat split; discriminate. Qed.

(** C4 (amended). With [size <= overlap] the splitter raises nothing: on
    the empty string it returns the empty list, and on every non-empty
    string it never returns (the start offset does not advance, whatever
    the fuel). *)
Theorem chunk_html_invalid_config {A : Type} (html : list A) (size overlap : Z) :
  size <= overlap ->
  (html = [] -> forall fuel, chunk_html fuel html size overlap = Some []) /\
  (html <> [] -> forall fuel, chunk_html fuel html size overlap = None).
Proof.
  intros Hcfg. split.
  - intros -> fuel. unfold chunk_html. by apply chunk_loop_exit.
  - intros Hne fuel. unfold chunk_html. apply chunk_loop_stuck; [done |].
    pose proof (len_nonneg html). pose proof (len_nil_iff html) as [Hz _].
    destruct (Z.eq_dec (len html) 0) as [H0 | H0]; [by apply Hz in H0 | lia].
Qed.

Lemma chunk_html_invalid_config_witness :
  400 <= 400 /\
  chunk_html 0 (@nil ascii) 400 400 = Some [] /\
  chunk_html 64 (chars "<p>") 400 400 = None.
Proof.
  split; [lia |].
  destruct (chunk_html_invalid_config (@nil ascii) 400 400) as [Hnil _]; [lia |].
  destruct (chunk_html_invalid_config (chars "<p>") 400 400) as [_ Hcons]; [lia |].
  split; [by apply Hnil | by apply Hcons].
Defined.

(* ===================================================================== *)
(** * Chunk splitter: coverage, lengths and overlaps *)
(* ===================================================================== *)

Section ChunkCoverage.
Context {A : Type}.
Implicit Types (html : list A) (size overlap : Z) (k : nat).

Lemma chunk_at_take_drop html size overlap k :
  0 <= overlap -> overlap < size ->
  chunk_at html size overlap (Z.of_nat k) =
  take (Z.to_nat size) (drop (k * Z.to_nat (size - overlap)) html).
Proof.
  intros Hov Hcfg. unfold chunk_at, chunk_start.
  rewrite py_slice_nonneg by nia. f_equal.
  - f_equal. lia.
  - f_equal. nia.
Qed.

Lemma chunk_at_length html size overlap k :
  0 <= overlap -> overlap < size ->
  len (chunk_at html size overlap (Z.of_nat k)) =
  Z.max 0 (chunk_end html size overlap (Z.of_nat k)
           - chunk_start size overlap (Z.of_nat k)).
Proof.
  intros Hov Hcfg. unfold chunk_at, chunk_end.
  apply py_slice_length; unfold chunk_start; nia.
Qed.

Lemma concat_steps (l : list A) (d m : nat) :
  concat (map (fun k : nat => take d (drop (k * d) l)) (seq 0 m)) =
  take (m * d) l.
Proof.
  induction m as [| m IH]; [done |].
  rewrite seq_S, map_app, concat_app, IH. simpl. rewrite app_nil_r.
  rewrite take_take_drop. f_equal. lia.
Qed.

(** Each chunk contributes its first [size - overlap] characters. *)
Lemma chunk_windows_concat html size overlap :
  0 <= overlap -> overlap < size ->
  concat (map (take (Z.to_nat (size - overlap)))
              (chunk_windows html size overlap)) = html.
Proof.
  intros Hov Hcfg. unfold chunk_windows. rewrite map_map.
  rewrite (map_ext _
    (fun k : nat => take (Z.to_nat (size - overlap))
                      (drop (k * Z.to_nat (size - overlap)) html))).
  - rewrite concat_steps. apply take_ge.
    pose proof (len_nonneg html).
    destruct (ceil_div_bounds (len html) (size - overlap)) as (? & ? & ?);
      [lia | lia |].
    fold (chunk_count html size overlap) in *. unfold len in *. nia.
  - intros k. rewrite chunk_at_take_drop by done.
    rewrite take_take. f_equal. lia.
Qed.

(** What two consecutive windows share: the part of the [k]-th one
    after its first [size - overlap] characters is a prefix of the
    next one. *)
Lemma chunk_at_shared html size overlap k :
  0 <= overlap -> overlap < size ->
  let d := Z.to_nat (size - overlap) in
  let c := chunk_at html size overlap (Z.of_nat k) in
  let c' := chunk_at html size overlap (Z.of_nat (S k)) in
  drop d c = take (length c - d) c' /\
  len (drop d c) =
  Z.max 0 (Z.min overlap (len html - chunk_start size overlap (Z.of_nat (S k)))).
Proof.
  intros Hov Hcfg d c c'. subst c c'.
  rewrite !chunk_at_take_drop by done. fold d.
  set (sz := Z.to_nat size). set (ov := Z.to_nat overlap).
  assert (Hsz : sz = (d + ov)%nat) by (subst sz d ov; lia).
  replace (S k * d)%nat with (k * d + d)%nat by lia.
  rewrite <- (drop_drop html d (k * d)).
  set (Y := drop (k * d) html).
  assert (Hshare : drop d (take sz Y) = take ov (drop d Y)).
  { rewrite Hsz. by rewrite take_drop_commute. }
  split.
  - rewrite Hshare, take_take, length_take.
    destruct (Nat.le_gt_cases sz (length Y)) as [Hfull | Hcut].
    + f_equal. lia.
    + rewrite !take_ge; [done | |]; rewrite length_drop; lia.
  - rewrite Hshare. unfold len, chunk_start.
    rewrite length_take, !length_drop. subst Y.
    rewrite length_drop. subst ov d. nia.
Qed.

End ChunkCoverage.

(** C7, as stated, fails: with [size = 3] and [overlap = 2] the string
    ["abcd"] gives four chunks; the third one is not the last and has
    length [2], not [size], and it shares one character with the fourth,
    not [overlap]. *)
Lemma chunk_html_short_tail_chunks :
  chunk_html 8 (chars "abcd") 3 2 =
    Some [chars "abc"; chars "bcd"; chars "cd"; chars "d"] /\
  len (chars "cd") = 2 /\ 2 <> 3 /\
  drop 1 (chars "cd") = chars "d" /\ len (chars "d") = 1 /\ 1 <> 2.
Proof. vm_compute. repeat split; discriminate. Qed.

(** C7 (amended). For [size > overlap >= 0] the splitter returns the
    windows [html[k*step : k*step + size]], [step = size - overlap], for
    [k = 0 .. ceil(len(html)/step) - 1], in this order, each starting
    inside the string and ending at [min(k*step + size, len(html))];
    the first [step] characters of the chunks, concatenated, are [html];
    a chunk whose window fits in the string has length [size]; two
    consecutive chunks share the characters from the later one's start
    to the earlier one's end, [min(overlap, len(html) - (k+1)*step)] of
    them, which is [overlap] when the earlier window fits; and for a
    non-empty string the last chunk ends at [len(html)]. *)
Theorem chunk_html_coverage {A : Type} (html : list A) (size overlap : Z) :
  0 <= overlap -> overlap < size ->
  let step := size - overlap in
  exists chunks,
    (forall fuel, (Z.to_nat (chunk_count html size overlap) <= fuel)%nat ->
                  chunk_html fuel html size overlap = Some chunks) /\
    len chunks = chunk_count html size overlap /\
    (forall k : nat, (k < length chunks)%nat ->
       chunks !! k =
         Some (py_slice html (Z.of_nat k * step) (Z.of_nat k * step + size)) /\
       Z.of_nat k * step < len html) /\
    (forall (k : nat) c, chunks !! k = Some c ->
       len c = Z.min (Z.of_nat k * step + size) (len html) - Z.of_nat k * step) /\
    concat (map (take (Z.to_nat step)) chunks) = html /\
    (forall (k : nat) c, chunks !! k = Some c ->
       Z.of_nat k * step + size <= len html -> len c = size) /\
    (forall (k : nat) c c', chunks !! k = Some c -> chunks !! S k = Some c' ->
       drop (Z.to_nat step) c = take (length c - Z.to_nat step) c' /\
       len (drop (Z.to_nat step) c) =
         Z.min overlap (len html - Z.of_nat (S k) * step) /\
       (Z.of_nat k * step + size <= len html ->
        len (drop (Z.to_nat step) c) = overlap)) /\
    (html <> [] ->
     chunk_end html size overlap (chunk_count html size overlap - 1) = len html).
Proof.
  intros Hov Hcfg step.
  pose proof (len_nonneg html) as Hn.
  pose proof (chunk_count_nonneg html size overlap Hcfg) as Hc0.
  destruct (ceil_div_bounds (len html) (size - overlap)) as (_ & Hc1 & Hc2);
    [lia | lia |].
  fold (chunk_count html size overlap) in Hc1, Hc2. fold step in Hc1, Hc2.
  assert (Hin : forall k : nat,
             (k < Z.to_nat (chunk_count html size overlap))%nat ->
             Z.of_nat k * step < len html) by (intros k Hk; nia).
  assert (Hget : forall (k : nat) c,
             chunk_windows html size overlap !! k = Some c ->
             (k < Z.to_nat (chunk_count html size overlap))%nat /\
             c = chunk_at html size overlap (Z.of_nat k)).
  { intros k c Hk. pose proof (lookup_lt_Some _ _ _ Hk) as Hlt.
    rewrite chunk_windows_length in Hlt. split; [done |].
    rewrite chunk_windows_lookup in Hk by done. congruence. }
  exists (chunk_windows html size overlap).
  split; [| split; [| split; [| split; [| split; [| split; [| split]]]]]].
  - intros fuel Hfuel. by apply chunk_html_windows.
  - unfold len at 1. rewrite chunk_windows_length. lia.
  - intros k Hk. rewrite chunk_windows_length in Hk. split.
    + by rewrite chunk_windows_lookup.
    + by apply Hin.
  - intros k c Hk. apply Hget in Hk as [Hlt ->].
    rewrite chunk_at_length by done. unfold chunk_end, chunk_start.
    fold step. specialize (Hin k Hlt). lia.
  - by apply chunk_windows_concat.
  - intros k c Hk Hfit. apply Hget in Hk as [Hlt ->].
    rewrite chunk_at_length by done. unfold chunk_end, chunk_start.
    fold step. lia.
  - intros k c c' Hk Hk'.
    apply Hget in Hk as [Hlt ->]. apply Hget in Hk' as [Hlt' ->].
    destruct (chunk_at_shared html size overlap k Hov Hcfg) as [Hsh Hlen].
    fold step in Hsh, Hlen. unfold chunk_start in Hlen. fold step in Hlen.
    specialize (Hin (S k) Hlt').
    split; [done | split]; rewrite Hlen; lia.
  - intros Hne. unfold chunk_end, chunk_start. fold step.
    assert (len html <> 0) by (intros H0; by apply len_nil_iff in H0).
    nia.
Qed.

Lemma chunk_html_coverage_witness :
  0 <= 2 /\ 2 < 3 /\
  exists chunks,
    chunk_html 4 (chars "abcd") 3 2 = Some chunks /\
    concat (map (take 1) chunks) = chars "abcd" /\
    len chunks = 4.
Proof.
  split; [lia | split; [lia |]].
  destruct (chunk_html_coverage (chars "abcd") 3 2)
    as (chunks & Hret & Hcount & _ & _ & Hcat & _); [lia | lia |].
  exists chunks. split; [| split].
  - apply Hret. vm_compute. lia.
  - exact Hcat.
  - exact Hcount.
Defined.

(* ===================================================================== *)
(** * The response parser *)
(* ===================================================================== *)

Section ParserFacts.
Variable json_loads : string -> exn + pyval.

Lemma add_each_cons (x : pyval) (l : list pyval) (s : pyset) :
  add_each (x :: l) s = add_each l (if py_in x s then s else s ++ [x]).
Proof. done. Qed.

Lemma add_selectors_prefix (l : list pyval) : forall s : pyset,
  add_selectors l s =
  (add_each (hashable_prefix l) s,
   if forallb hashable l then inr tt else inl TypeError).
Proof.
  induction l as [| x l IH]; intros s; [done |].
  simpl. unfold set_add. destruct (hashable x); simpl; [| done].
  by rewrite IH.
Qed.

Lemma hashable_prefix_all (l : list pyval) :
  forallb hashable l = true -> hashable_prefix l = l.
Proof.
  induction l as [| x l IH]; [done |]. simpl.
  destruct (hashable x); simpl; [| done]. intros H. by rewrite IH.
Qed.

Lemma py_in_app (x : pyval) (s t : pyset) :
  py_in x (s ++ t) = py_in x s || py_in x t.
Proof. unfold py_in. apply existsb_app. Qed.

(** [add_each] only appends. *)
Lemma add_each_extends (l : list pyval) : forall s : pyset,
  exists t, add_each l s = s ++ t.
Proof.
  induction l as [| x l IH]; intros s.
  - exists []. by rewrite app_nil_r.
  - rewrite add_each_cons. destruct (py_in x s).
    + apply IH.
    + destruct (IH (s ++ [x])) as [t Ht]. exists (x :: t).
      rewrite Ht. by rewrite <- app_assoc.
Qed.

(** Every value that was passed to [add] is afterwards in the set, as
    the object itself or as an equal element. *)
Lemma add_each_member (l : list pyval) : forall (s : pyset) x,
  In x l -> In x (add_each l s) \/ py_in x (add_each l s) = true.
Proof.
  induction l as [| y l IH]; intros s x Hx; [done |].
  rewrite add_each_cons. destruct Hx as [-> | Hx].
  - destruct (py_in x s) eqn:Hin.
    + right. destruct (add_each_extends l s) as [t ->].
      by rewrite py_in_app, Hin.
    + left. destruct (add_each_extends l (s ++ [x])) as [t ->].
      apply in_or_app. left. apply in_or_app. right. by left.
  - by apply IH.
Qed.

Lemma first_list_value_none (items : list (string * pyval)) :
  (forall kv, In kv items -> is_list (snd kv) = false) ->
  first_list_value items = [].
Proof.
  induction items as [| [k v] items IH]; intros Hno; [done |].
  simpl. pose proof (Hno (k, v) (or_introl eq_refl)) as Hv. simpl in Hv.
  destruct v; try discriminate; apply IH; intros kv Hkv; apply Hno; by right.
Qed.

Lemma parse_response_returns (result_str : option string) (s : pyset) :
  snd (parse_response json_loads result_str s) = inr tt.
Proof.
  unfold parse_response. destruct result_str as [r |]; [| done].
  destruct (str_falsy r); [done |].
  destruct (parse_try_body json_loads r s) as [s' [e | []]]; done.
Qed.

Lemma reduce_responses_returns (api_responses : list (option string)) :
  forall s : pyset, snd (reduce_responses json_loads api_responses s) = inr tt.
Proof.
  induction api_responses as [| r rest IH]; intros s; [done |].
  simpl. pose proof (parse_response_returns r s) as Hr.
  destruct (parse_response json_loads r s) as [s' [e | u]]; [done |].
  apply IH.
Qed.

End ParserFacts.

(* --------------------------------------------------------------------- *)
(** ** What the pattern finds *)

Lemma has_char_get (c : ascii) (s : string) :
  has_char c s = true <-> exists j, String.get j s = Some c.
Proof.
  induction s as [| a s IH]; simpl.
  - split; [done | intros [j Hj]; done].
  - rewrite orb_true_iff, IH. split.
    + intros [Ha | [j Hj]].
      * apply Ascii.eqb_eq in Ha. subst a. by exists 0%nat.
      * by exists (S j).
    + intros [[| j] Hj]; simpl in Hj.
      * left. apply Ascii.eqb_eq. congruence.
      * right. by exists j.
Qed.

Lemma upto_last_None (c : ascii) (s : string) :
  upto_last c s = None <-> has_char c s = false.
Proof.
  induction s as [| a s IH]; simpl; [done |].
  destruct (upto_last c s) as [p |].
  - split; [done |]. intros H. apply orb_false_iff in H as [_ H].
    apply IH in H. done.
  - destruct IH as [IH _]. rewrite (IH eq_refl), orb_false_r.
    destruct (Ascii.eqb a c); done.
Qed.

Lemma json_looking_cons (a : ascii) (s : string) :
  json_looking (String a s) <->
  (a = "{"%char /\ has_char "}" s = true) \/
  (a = "["%char /\ has_char "]" s = true) \/
  json_looking s.
Proof.
  split.
  - intros (i & j & Hij & H). destruct j as [| j]; [lia |]. simpl in H.
    destruct i as [| i]; simpl in H.
    + destruct H as [[Ha Hj] | [Ha Hj]].
      * left. split; [congruence | apply has_char_get; by exists j].
      * right. left. split; [congruence | apply has_char_get; by exists j].
    + right. right. exists i, j. split; [lia | done].
  - intros [[-> H] | [[-> H] | (i & j & Hij & H)]].
    + apply has_char_get in H as [j Hj]. exists 0%nat, (S j).
      split; [lia |]. left. done.
    + apply has_char_get in H as [j Hj]. exists 0%nat, (S j).
      split; [lia |]. right. done.
    + exists (S i), (S j). split; [lia | done].
Qed.

(** The search fails exactly on the strings that hold no such pair. *)
Lemma re_search_None_iff (s : string) :
  re_search s = None <-> ~ json_looking s.
Proof.
  induction s as [| a s IH].
  - simpl. split; [| done]. intros _ (i & j & _ & [[H _] | [H _]]); done.
  - rewrite json_looking_cons. simpl.
    destruct (Ascii.eqb a "{") eqn:Hbrace.
    + apply Ascii.eqb_eq in Hbrace. subst a.
      destruct (upto_last "}" s) as [p |] eqn:Hup.
      * split; [done |]. intros Hno. exfalso. apply Hno. left.
        split; [done |]. destruct (has_char "}" s) eqn:Hc; [done |].
        apply upto_last_None in Hc. congruence.
      * apply upto_last_None in Hup. rewrite IH, Hup.
        split; [| tauto]. intros Hno [[_ H] | [[H _] | H]]; done.
    + apply Ascii.eqb_neq in Hbrace.
      destruct (Ascii.eqb a "[") eqn:Hbracket.
      * apply Ascii.eqb_eq in Hbracket. subst a.
        destruct (upto_last "]" s) as [p |] eqn:Hup.
        -- split; [done |]. intros Hno. exfalso. apply Hno. right. left.
           split; [done |]. destruct (has_char "]" s) eqn:Hc; [done |].
           apply upto_last_None in Hc. congruence.
        -- apply upto_last_None in Hup. rewrite IH, Hup.
           split; [| tauto]. intros Hno [[H _] | [[_ H] | H]]; done.
      * apply Ascii.eqb_neq in Hbracket. rewrite IH.
        split; [| tauto]. intros Hno [[H _] | [[H _] | H]]; done.
Qed.

(** C8. The parsing stage never raises to its caller: one response
    always leaves the loop body normally, and so does the whole loop
    over the responses.  When the text holds no object- or array-looking
    substring (no brace or bracket with its closing partner after it),
    or the extracted substring does not decode, or it decodes to an
    object none of whose values is a list, the selector set is left as
    it was (and [detect_selectors] of universal_scraper_agent.py returns
    the empty list); the next response is then processed. *)
Theorem parse_response_lenient
    (json_loads : string -> exn + pyval) (r : string) (s : pyset) :
  (forall result_str s0,
      snd (parse_response json_loads result_str s0) = inr tt) /\
  (forall api_responses s0,
      snd (reduce_responses json_loads api_responses s0) = inr tt) /\
  (~ json_looking r \/
   (exists json_str e,
       re_search r = Some json_str /\ json_loads json_str = inl e) \/
   (exists json_str items,
       re_search r = Some json_str /\
       json_loads json_str = inr (PDict items) /\
       forall kv, In kv items -> is_list (snd kv) = false) ->
   parse_response json_loads (Some r) s = (s, inr tt) /\
   detect_selectors json_loads r = [] /\
   forall rest,
     reduce_responses json_loads (Some r :: rest) s =
     reduce_responses json_loads rest s).
Proof.
  split; [| split].
  - intros result_str s0. apply parse_response_returns.
  - intros api_responses s0. apply reduce_responses_returns.
  - intros Hcase.
    assert (Hone : parse_response json_loads (Some r) s = (s, inr tt) /\
                   detect_selectors json_loads r = []).
    { unfold parse_response, detect_selectors, parse_try_body.
      destruct (str_falsy r); [done |].
      destruct Hcase as [Hno | [(j & e & Hj & He) | (j & items & Hj & Hd & Hnl)]].
      - apply re_search_None_iff in Hno. by rewrite Hno.
      - by rewrite Hj, He.
      - rewrite Hj, Hd. simpl. by rewrite first_list_value_none. }
    destruct Hone as [Hp Hd]. split; [done | split; [done |]].
    intros rest. simpl in *. by rewrite Hp.
Qed.

Lemma parse_response_lenient_witness :
  parse_response json_loads_examples (Some "no json here"%string) [PStr "a.btn"]
    = ([PStr "a.btn"], inr tt) /\
  parse_response json_loads_examples (Some "sure: {not json}"%string) []
    = ([], inr tt) /\
  detect_selectors json_loads_examples (jq "{'count': 2, 'note': 'none'}") = [].
Proof.
  split; [| split].
  - apply (parse_response_lenient json_loads_examples "no json here" [PStr "a.btn"]).
    left. apply re_search_None_iff. reflexivity.
  - apply (parse_response_lenient json_loads_examples "sure: {not json}" []).
    right. left. exists "{not json}"%string, JSONDecodeError.
    split; reflexivity.
  - apply (parse_response_lenient json_loads_examples
             (jq "{'count': 2, 'note': 'none'}") []).
    right. right.
    exists (jq "{'count': 2, 'note': 'none'}"),
      [("count"%string, PInt 2); ("note"%string, PStr "none")].
    split; [reflexivity | split; [reflexivity |]].
    intros kv [<- | [<- | []]]; reflexivity.
Defined.

(** The examples of the specification's parser-leniency property. *)
Example parse_object_in_prose :
  parse_response json_loads_examples
    (Some ("Some text " ++ jq "{'selectors': ['a.btn', 'div#x']}" ++ " trailing")%string)
    []
  = ([PStr "a.btn"; PStr "div#x"], inr tt).
Proof. vm_compute. reflexivity. Qed.

Example parse_no_json :
  parse_response json_loads_examples (Some "no json here"%string) []
  = ([], inr tt).
Proof. vm_compute. reflexivity. Qed.

Example parse_array_with_duplicate :
  parse_response json_loads_examples (Some (jq "['x','y','x']")) []
  = ([PStr "x"; PStr "y"], inr tt).
Proof. vm_compute. reflexivity. Qed.

(** C6, as stated, fails.  In scraper-agent.py a number in the candidate
    list is added to the selector set like a string, and a nested list
    in first place raises [TypeError] at [add], so that response adds
    nothing although it held a string selector; in
    universal_scraper_agent.py the list is returned with its non-string
    element. *)
Lemma parse_response_keeps_non_strings :
  parse_response json_loads_examples (Some (jq "[1, 'a.btn']")) []
    = ([PInt 1; PStr "a.btn"], inr tt) /\
  parse_response json_loads_examples (Some (jq "[['nested'], 'a.btn']")) []
    = ([], inr tt) /\
  detect_selectors json_loads_examples (jq "[1, 'a.btn']")
    = [PInt 1; PStr "a.btn"].
Proof. vm_compute. repeat split. Qed.

(** C6 (amended). The parser does not look at the type of a candidate.
    In scraper-agent.py the elements of the candidate list are added to
    the selector set one by one up to the first unhashable one (a nested
    list or object), strings or not; the [TypeError] raised there is
    caught by the handler of that response, so the elements before it
    stay and the ones from it on are not added (none at all when it is
    the first).  In universal_scraper_agent.py the candidate list is
    returned as decoded.  The exception never leaves the stage. *)
Theorem parse_response_candidates
    (json_loads : string -> exn + pyval) (r json_str : string)
    (data : pyval) (s : pyset) :
  str_falsy r = false ->
  re_search r = Some json_str ->
  json_loads json_str = inr data ->
  let l := selectors_list_of data in
  parse_response json_loads (Some r) s
    = (add_each (hashable_prefix l) s, inr tt) /\
  (forall x, In x (hashable_prefix l) ->
             In x (add_each (hashable_prefix l) s) \/
             py_in x (add_each (hashable_prefix l) s) = true) /\
  (forallb hashable l = true -> hashable_prefix l = l) /\
  (forall x rest, l = x :: rest -> hashable x = false ->
                  parse_response json_loads (Some r) s = (s, inr tt)) /\
  detect_selectors json_loads r = l.
Proof.
  intros Hr Hj Hd l.
  assert (Hp : parse_response json_loads (Some r) s
               = (add_each (hashable_prefix l) s, inr tt)).
  { unfold parse_response, parse_try_body. rewrite Hr, Hj, Hd.
    fold l. rewrite add_selectors_prefix. simpl.
    by destruct (forallb hashable l). }
  split; [done | split; [| split; [| split]]].
  - intros x Hx. by apply add_each_member.
  - apply hashable_prefix_all.
  - intros x rest Hl Hx. rewrite Hp, Hl. simpl. by rewrite Hx.
  - unfold detect_selectors. rewrite Hr, Hj, Hd. subst l.
    by destruct data.
Qed.

Lemma parse_response_candidates_witness :
  parse_response json_loads_examples
    (Some (jq "['a.btn', {'css': 'div#x'}, 'p.more']")) []
  = ([PStr "a.btn"], inr tt).
Proof.
  apply (parse_response_candidates json_loads_examples
           (jq "['a.btn', {'css': 'div#x'}, 'p.more']")
           (jq "['a.btn', {'css': 'div#x'}, 'p.more']")
           (PList [PStr "a.btn"; PDict [("css"%string, PStr "div#x")];
                   PStr "p.more"]) []);
    reflexivity.
Defined.

(* ===================================================================== *)
(** * The crawl loop: the frontier *)
(* ===================================================================== *)

Lemma frontier_inv_initial (START_URL : string) :
  frontier_inv (initial_state START_URL).
Proof.
  unfold frontier_inv. simpl. split; [| split; [| split; [| split]]].
  - apply NoDup_singleton.
  - intros u _. set_solver.
  - done.
  - apply NoDup_nil_2.
  - intros u. set_solver.
Qed.

Lemma append_queue_frontier_inv (h : string) (st : crawl_state) :
  h ∉ visited_pages st -> h ∉ queue st ->
  frontier_inv st -> frontier_inv (append_queue h st).
Proof.
  intros Hv Hq (Hnd & Hdis & Hfifo & Hnav & Hvis).
  unfold frontier_inv. simpl. split; [| split; [| split; [| split]]].
  - apply NoDup_app. split; [done | split].
    + intros u Hu Hin. apply list_elem_of_singleton in Hin. by subst u.
    + apply NoDup_singleton.
  - intros u Hu. apply elem_of_app in Hu as [Hu | Hu]; [by apply Hdis |].
    apply list_elem_of_singleton in Hu. by subst u.
  - rewrite Hfifo. by rewrite app_assoc.
  - done.
  - done.
Qed.

Lemma download_phase_frontier (p : page) (url : string) (st : crawl_state) :
  visited_pages (download_phase p url st) = visited_pages st /\
  queue (download_phase p url st) = queue st /\
  dequeued (download_phase p url st) = dequeued st /\
  navigated (download_phase p url st) = navigated st /\
  enqueued (download_phase p url st) = enqueued st.
Proof.
  unfold download_phase.
  by destruct (dispatch_downloads _ _ _) as [downloaded download_tasks].
Qed.

Lemma download_phase_frontier_inv (p : page) (url : string) (st : crawl_state) :
  frontier_inv st -> frontier_inv (download_phase p url st).
Proof.
  destruct (download_phase_frontier p url st) as (Hv & Hq & Hd & Hn & He).
  unfold frontier_inv. by rewrite Hv, Hq, Hd, Hn, He.
Qed.

Section FrontierFacts.
Variable netloc : string -> option string.
Variable base_domain : string.

(** One anchor either leaves the state as it is or appends its [href],
    which then is an [http...] URL of the base domain that is neither
    visited nor queued. *)
Lemma discover_link_cases (href : option string) (st st' : crawl_state) :
  discover_link netloc base_domain href st = Some st' ->
  st' = st \/
  exists h, href = Some h /\ String.prefix "http" h = true /\
            netloc h = Some base_domain /\
            (h ∉ visited_pages st) /\ (h ∉ queue st) /\
            st' = append_queue h st.
Proof.
  unfold discover_link, truthy_href. intros H.
  destruct href as [h |]; [| left; congruence].
  destruct (str_falsy h); [left; congruence |].
  destruct (String.prefix "http" h) eqn:Hp; [| left; congruence].
  destruct (netloc h) as [host |] eqn:Hn; [| done].
  destruct (String.eqb host base_domain) eqn:Hd; [| left; congruence].
  apply String.eqb_eq in Hd. subst host.
  destruct (bool_decide (h ∉ visited_pages st)) eqn:Hv;
    [| left; simpl in H; congruence].
  destruct (bool_decide (h ∉ queue st)) eqn:Hq;
    [| left; simpl in H; congruence].
  apply bool_decide_eq_true in Hv, Hq. simpl in H.
  right. exists h. repeat split; congruence || done.
Qed.

Lemma discover_links_frontier_inv (hrefs : list (option string)) :
  forall st, frontier_inv st ->
             frontier_inv (discover_links netloc base_domain hrefs st).
Proof.
  induction hrefs as [| href rest IH]; intros st Hinv; [done |].
  simpl. destruct (discover_link netloc base_domain href st) as [st' |] eqn:Hl;
    [| done].
  apply IH. apply discover_link_cases in Hl as [-> | (h & _ & _ & _ & Hv & Hq & ->)];
    [done |]. by apply append_queue_frontier_inv.
Qed.

Lemma crawl_step_frontier_inv (st : crawl_state) (p : page) :
  frontier_inv st -> frontier_inv (crawl_step netloc base_domain st p).
Proof.
  intros Hinv. unfold crawl_step.
  destruct (queue st) as [| url rest] eqn:Hqueue; [done |].
  destruct Hinv as (Hnd & Hdis & Hfifo & Hnav & Hvis).
  rewrite Hqueue in Hnd, Hdis, Hfifo.
  apply NoDup_cons in Hnd as [Hurl Hrest].
  assert (Hpop : frontier_inv (popleft url rest st)).
  { unfold frontier_inv. simpl. split; [done | split; [| split; [| split]]].
    - intros u Hu. apply Hdis. by right.
    - rewrite Hfifo. by rewrite <- app_assoc.
    - done.
    - done. }
  assert (Hfresh : url ∉ visited_pages st) by (apply Hdis; by left).
  destruct (bool_decide (url ∈ visited_pages (popleft url rest st))); [done |].
  destruct (nav_ok p); simpl; [| done].
  assert (Hmark : frontier_inv (mark_visited url (popleft url rest st))).
  { unfold frontier_inv. simpl. split; [done | split; [| split; [| split]]].
    - intros u Hu Hin. apply elem_of_union in Hin as [Hin | Hin].
      + apply elem_of_singleton in Hin. by subst u.
      + apply (Hdis u); [by right | done].
    - rewrite Hfifo. by rewrite <- app_assoc.
    - apply NoDup_app. split; [done | split; [| apply NoDup_singleton]].
      intros u Hu Hin. apply list_elem_of_singleton in Hin. subst u.
      by apply Hvis in Hu.
    - intros u. rewrite elem_of_app, list_elem_of_singleton, elem_of_union,
        elem_of_singleton, Hvis. tauto. }
  destruct (scrape_ok p); simpl; [| done].
  by apply discover_links_frontier_inv, download_phase_frontier_inv.
Qed.

Lemma crawl_steps_frontier_inv (pages : list page) :
  forall st, frontier_inv st ->
             frontier_inv (fold_left (crawl_step netloc base_domain) pages st).
Proof.
  induction pages as [| p pages IH]; intros st Hinv; [done |].
  simpl. by apply IH, crawl_step_frontier_inv.
Qed.

End FrontierFacts.

(* ===================================================================== *)
(** * The crawl loop: what is dequeued, and what is loaded *)
(* ===================================================================== *)

Section DequeueFacts.
Variable netloc : string -> option string.
Variable base_domain : string.

(** The link loop neither dequeues nor loads nor marks a page. *)
Lemma discover_links_trace (hrefs : list (option string)) :
  forall st,
    let st' := discover_links netloc base_domain hrefs st in
    visited_pages st' = visited_pages st /\
    dequeued st' = dequeued st /\ navigated st' = navigated st.
Proof.
  induction hrefs as [| href rest IH]; intros st; [done |].
  simpl. destruct (discover_link netloc base_domain href st) as [st1 |] eqn:Hl;
    [| done].
  destruct (IH st1) as (Hv & Hd & Hn).
  apply discover_link_cases in Hl as [-> | (h & _ & _ & _ & _ & _ & ->)];
    [done |].
  by rewrite Hv, Hd, Hn.
Qed.

(** One iteration dequeues the head of the queue, which is no visited
    page, and loads it or not; nothing leaves the visited set. *)
Lemma crawl_step_dequeue (st : crawl_state) (p : page) :
  frontier_inv st ->
  let st' := crawl_step netloc base_domain st p in
  exists later loaded,
    dequeued st' = dequeued st ++ later /\
    navigated st' = navigated st ++ loaded /\
    sublist loaded later /\
    (forall u, u ∈ later -> u ∉ visited_pages st) /\
    visited_pages st ⊆ visited_pages st'.
Proof.
  intros (_ & Hdis & _) st'. subst st'. unfold crawl_step.
  destruct (queue st) as [| url rest] eqn:Hqueue.
  - exists [], []. rewrite !app_nil_r. by repeat split.
  - assert (Hfresh : forall u, u ∈ [url] -> u ∉ visited_pages st).
    { intros u Hu. apply list_elem_of_singleton in Hu. subst u.
      apply Hdis. by left. }
    destruct (bool_decide (url ∈ visited_pages (popleft url rest st))).
    { exists [url], []. rewrite app_nil_r. simpl.
      split; [done | split; [done | split; [apply sublist_nil_l | done]]]. }
    destruct (nav_ok p); simpl.
    + destruct (scrape_ok p); simpl.
      * destruct (discover_links_trace (link_hrefs p)
                    (download_phase p url
                       (mark_visited url (popleft url rest st))))
          as (Hv & Hd & Hn).
        destruct (download_phase_frontier p url
                    (mark_visited url (popleft url rest st)))
          as (Hv' & _ & Hd' & Hn' & _).
        exists [url], [url]. rewrite Hv, Hd, Hn, Hv', Hd', Hn'. simpl.
        split; [done | split; [done | split; [done | split; [done |]]]].
        set_solver.
      * exists [url], [url].
        split; [done | split; [done | split; [done | split; [done |]]]].
        set_solver.
    + exists [url], [].  rewrite app_nil_r.
      split; [done | split; [done | split; [apply sublist_nil_l | done]]].
Qed.

(** Over any number of iterations: what is dequeued from a state on
    holds no page that was visited in that state. *)
Lemma crawl_steps_dequeue (pages : list page) :
  forall st, frontier_inv st ->
    let st' := fold_left (crawl_step netloc base_domain) pages st in
    exists later,
      dequeued st' = dequeued st ++ later /\
      (forall u, u ∈ later -> u ∉ visited_pages st).
Proof.
  induction pages as [| p pages IH]; intros st Hinv.
  - exists []. simpl. rewrite app_nil_r. split; [done |].
    intros u Hu. by apply elem_of_nil in Hu.
  - simpl.
    destruct (crawl_step_dequeue st p Hinv)
      as (later1 & _ & Hd1 & _ & _ & Hfresh1 & Hsub).
    destruct (IH (crawl_step netloc base_domain st p)
                (crawl_step_frontier_inv netloc base_domain st p Hinv))
      as (later2 & Hd2 & Hfresh2).
    exists (later1 ++ later2). rewrite Hd2, Hd1, app_assoc. split; [done |].
    intros u Hu. apply elem_of_app in Hu as [Hu | Hu]; [by apply Hfresh1 |].
    intros Hin. apply (Hfresh2 u Hu). by apply Hsub.
Qed.

(** The pages loaded are among the URLs dequeued, in the same order. *)
Lemma crawl_steps_loaded (pages : list page) :
  forall st, frontier_inv st ->
    sublist (navigated st) (dequeued st) ->
    sublist (navigated (fold_left (crawl_step netloc base_domain) pages st))
            (dequeued (fold_left (crawl_step netloc base_domain) pages st)).
Proof.
  induction pages as [| p pages IH]; intros st Hinv Hsub; [done |].
  simpl. apply IH; [by apply crawl_step_frontier_inv |].
  destruct (crawl_step_dequeue st p Hinv)
    as (later & loaded & -> & -> & Hl & _).
  by apply sublist_app.
Qed.

End DequeueFacts.

(** C1, as stated, fails: a URL can be dequeued twice in one run.  The
    navigation to [cfr_help] raises when it is dequeued first, so it is
    not marked visited; a later page links to it, it is queued again and
    dequeued a second time. *)
Lemma url_dequeued_twice :
  let st := crawl netloc_plain govinfo START_URL
              [hub_page; unreachable_page; back_link_page; start_page] in
  dequeued st = [START_URL; cfr_help; cfr_about; cfr_help] /\
  navigated st = [START_URL; cfr_about; cfr_help] /\
  ~ NoDup (dequeued st).
Proof.
  assert (Hd : dequeued (crawl netloc_plain govinfo START_URL
                 [hub_page; unreachable_page; back_link_page; start_page])
               = [START_URL; cfr_help; cfr_about; cfr_help])
    by (vm_compute; reflexivity).
  cbv zeta. rewrite Hd. split; [done | split; [vm_compute; reflexivity |]].
  intros Hnd. apply NoDup_cons in Hnd as [_ Hnd].
  apply NoDup_cons in Hnd as [Hnot _]. apply Hnot.
  apply list_elem_of_In. right. left. reflexivity.
Qed.

(** C1 (amended). In every state the crawl loop reaches, the queue holds
    no URL twice and no URL of the visited set; an anchor's [href] is
    appended to the queue only when it is in neither; the URLs dequeued
    so far followed by the queue are the URLs enqueued so far, in that
    order (first in, first out); no page is loaded and marked visited
    twice: the pages loaded are exactly the visited ones, each loaded
    once, and they are among the dequeued URLs in the same order; and
    a URL that is marked visited is never dequeued again in the rest of
    the run.  (A URL whose navigation raised is not marked, and can be
    queued and dequeued again.) *)
Theorem frontier_invariant_fifo
    (netloc : string -> option string) (base_domain START_URL : string)
    (pages later_pages : list page) :
  let st := crawl netloc base_domain START_URL pages in
  let st_end := crawl netloc base_domain START_URL (pages ++ later_pages) in
  NoDup (queue st) /\
  (forall u, u ∈ queue st -> u ∉ visited_pages st) /\
  (forall href st0 st',
      discover_link netloc base_domain href st0 = Some st' ->
      queue st' = queue st0 \/
      exists h, href = Some h /\ (h ∉ visited_pages st0) /\ (h ∉ queue st0) /\
                queue st' = queue st0 ++ [h]) /\
  enqueued st = dequeued st ++ queue st /\
  NoDup (navigated st) /\
  (forall u, u ∈ navigated st <-> u ∈ visited_pages st) /\
  sublist (navigated st) (dequeued st) /\
  exists later,
    dequeued st_end = dequeued st ++ later /\
    (forall u, u ∈ visited_pages st -> u ∉ later).
Proof.
  intros st st_end.
  pose proof (crawl_steps_frontier_inv netloc base_domain pages
                (initial_state START_URL) (frontier_inv_initial START_URL))
    as Hinv.
  fold (crawl netloc base_domain START_URL pages) in Hinv. fold st in Hinv.
  assert (Hloaded : sublist (navigated st) (dequeued st)).
  { apply crawl_steps_loaded; [apply frontier_inv_initial | done]. }
  destruct (crawl_steps_dequeue netloc base_domain later_pages st Hinv)
    as (later & Hlater & Hfresh).
  assert (Hend : st_end
                 = fold_left (crawl_step netloc base_domain) later_pages st).
  { subst st_end st. unfold crawl. by rewrite fold_left_app. }
  destruct Hinv as (Hnd & Hdis & Hfifo & Hnav & Hvis).
  split; [done | split; [done | split; [| split; [done | split; [done |
    split; [done | split; [done |]]]]]]].
  - intros href st0 st' Hl.
    apply discover_link_cases in Hl as [-> | (h & -> & _ & _ & Hv & Hq & ->)].
    + by left.
    + right. exists h. done.
  - exists later. rewrite Hend. split; [done |].
    intros u Hu Hin. by apply (Hfresh u Hin).
Qed.

Lemma frontier_invariant_fifo_witness :
  let st := crawl netloc_plain govinfo START_URL
              [hub_page; unreachable_page; back_link_page; start_page] in
  NoDup (queue st) /\ enqueued st = dequeued st ++ queue st /\
  NoDup (navigated st) /\ sublist (navigated st) (dequeued st).
Proof.
  pose proof (frontier_invariant_fifo netloc_plain govinfo START_URL
                [hub_page; unreachable_page; back_link_page; start_page] [])
    as H.
  cbv zeta in *. destruct H as (Hq & _ & _ & Hfifo & Hnav & _ & Hsub & _).
  split; [exact Hq | split; [exact Hfifo | split; [exact Hnav | exact Hsub]]].
Defined.

(* ===================================================================== *)
(** * The crawl loop: downloads and the download log *)
(* ===================================================================== *)

(** The dispatch loop creates a task exactly for the URLs of the page
    that are not yet in [downloaded_pdf_urls], once each, and has put
    every one of them in the set. *)
Lemma dispatch_downloads_spec (l : list string) :
  forall (d : gset string) (t : list string) d' t',
    dispatch_downloads l d t = (d', t') ->
    exists new,
      t' = t ++ new /\ NoDup new /\
      (forall u, u ∈ new -> u ∉ d /\ u ∈ l) /\
      (forall u, u ∈ d' <-> u ∈ d \/ u ∈ new) /\
      (forall u, u ∈ l -> u ∈ d').
Proof.
  induction l as [| pdf_url rest IH]; intros d t d' t' H; simpl in H.
  - inversion H; subst. exists []. rewrite app_nil_r.
    split; [done | split; [apply NoDup_nil_2 | split; [| split]]].
    + intros u Hu. by apply elem_of_nil in Hu.
    + intros u. split; [by left | intros [Hu | Hu]; [done |]].
      by apply elem_of_nil in Hu.
    + intros u Hu. by apply elem_of_nil in Hu.
  - destruct (bool_decide (pdf_url ∈ d)) eqn:Hin.
    + apply bool_decide_eq_true in Hin.
      destruct (IH _ _ _ _ H) as (new & Ht & Hnd & Hnew & Hd' & Hl).
      exists new. split; [done | split; [done | split; [| split; [done |]]]].
      * intros u Hu. destruct (Hnew u Hu). split; [done | by right].
      * intros u Hu. apply elem_of_cons in Hu as [-> | Hu]; [| by apply Hl].
        apply Hd'. by left.
    + apply bool_decide_eq_false in Hin.
      destruct (IH _ _ _ _ H) as (new & Ht & Hnd & Hnew & Hd' & Hl).
      exists (pdf_url :: new).
      split; [by rewrite Ht, <- app_assoc | split; [| split; [| split]]].
      * apply NoDup_cons. split; [| done].
        intros Hu. destruct (Hnew _ Hu) as [Hnot _]. set_solver.
      * intros u Hu. apply elem_of_cons in Hu as [-> | Hu].
        -- split; [done | by left].
        -- destruct (Hnew u Hu) as [Hnot Hrest].
           split; [set_solver | by right].
      * intros u. rewrite Hd', elem_of_cons. set_solver.
      * intros u Hu. apply elem_of_cons in Hu as [-> | Hu]; [| by apply Hl].
        apply Hd'. left. set_solver.
Qed.

(** The lines one task list leaves in the log: one per task whose
    download succeeded, in some order. *)
Lemma download_lines_elem (p : page) (url : string) (l : list string)
    (r : string * string) :
  r ∈ flat_map (fun u => download_pdf_concurrently p u url) l <->
  exists u, u ∈ l /\ fetch_ok p u = true /\ r = (u, url).
Proof.
  rewrite list_elem_of_In, in_flat_map. unfold download_pdf_concurrently.
  split.
  - intros (u & Hu & Hr). exists u. rewrite list_elem_of_In.
    destruct (fetch_ok p u); [| done].
    destruct Hr as [<- | []]. done.
  - intros (u & Hu & Hok & ->). exists u. rewrite <- list_elem_of_In.
    split; [done |]. rewrite Hok. by left.
Qed.

Lemma download_lines_NoDup (p : page) (url : string) (l : list string) :
  NoDup l ->
  NoDup (fst <$> flat_map (fun u => download_pdf_concurrently p u url) l).
Proof.
  induction 1 as [| u l Hu Hl IH]; [apply NoDup_nil_2 |].
  simpl. rewrite fmap_app. apply NoDup_app. split; [| split; [| done]].
  - unfold download_pdf_concurrently. destruct (fetch_ok p u); simpl.
    + apply NoDup_singleton.
    + apply NoDup_nil_2.
  - intros v Hv Hv'. unfold download_pdf_concurrently in Hv.
    destruct (fetch_ok p u); simpl in Hv; [| by apply elem_of_nil in Hv].
    apply list_elem_of_singleton in Hv. subst v.
    apply list_elem_of_fmap in Hv' as ([u' src] & Heq & Hin). simpl in Heq.
    subst u'. apply download_lines_elem in Hin as (u' & Hu' & _ & Heq).
    congruence.
Qed.

Lemma gather_downloads_elem (p : page) (tasks : list string) (url : string)
    (r : string * string) :
  r ∈ gather_downloads p tasks url <->
  exists u, u ∈ tasks /\ fetch_ok p u = true /\ r = (u, url).
Proof.
  unfold gather_downloads. rewrite download_lines_elem.
  split; intros (u & Hu & H); exists u; split; try done.
  - by rewrite merge_sort_Permutation in Hu.
  - by rewrite merge_sort_Permutation.
Qed.

Lemma gather_downloads_NoDup (p : page) (tasks : list string) (url : string) :
  NoDup tasks -> NoDup (fst <$> gather_downloads p tasks url).
Proof.
  intros Hnd. apply download_lines_NoDup. by rewrite merge_sort_Permutation.
Qed.

Lemma gather_downloads_fst (p : page) (tasks : list string) (url u : string) :
  u ∈ (fst <$> gather_downloads p tasks url) <->
  u ∈ tasks /\ fetch_ok p u = true.
Proof.
  rewrite list_elem_of_fmap. split.
  - intros ([u' src] & Heq & Hin). simpl in Heq. subst u'.
    apply gather_downloads_elem in Hin as (u' & Hu' & Hok & Heq).
    by inversion Heq; subst.
  - intros [Hu Hok]. exists (u, url). split; [done |].
    apply gather_downloads_elem. by exists u.
Qed.

Lemma gather_downloads_nil (p : page) (url : string) :
  gather_downloads p [] url = [].
Proof. done. Qed.

Lemma download_phase_spec (p : page) (url : string) (st : crawl_state) :
  exists tasks,
    fetched (download_phase p url st) = fetched st ++ tasks /\
    download_log (download_phase p url st)
      = download_log st ++ gather_downloads p tasks url /\
    NoDup tasks /\
    (forall u, u ∈ tasks -> u ∉ downloaded_pdf_urls st) /\
    (forall u, u ∈ downloaded_pdf_urls (download_phase p url st) <->
               u ∈ downloaded_pdf_urls st \/ u ∈ tasks) /\
    (forall u, u ∈ omap truthy_href (pdf_hrefs p) ->
               u ∈ downloaded_pdf_urls (download_phase p url st)).
Proof.
  unfold download_phase.
  destruct (dispatch_downloads _ _ _) as [downloaded download_tasks] eqn:Hd.
  apply dispatch_downloads_spec in Hd as (new & -> & Hnd & Hnew & Hd' & Hl).
  exists new. simpl. repeat split; try done.
  - intros u Hu. by destruct (Hnew u Hu).
  - by apply Hd'.
  - by apply Hd'.
  - intros u Hu. apply Hl. apply elem_of_elements.
    by apply elem_of_list_to_set.
Qed.

Section DownloadFacts.
Variable netloc : string -> option string.
Variable base_domain : string.

Lemma discover_link_downloads (href : option string) (st st' : crawl_state) :
  discover_link netloc base_domain href st = Some st' ->
  downloaded_pdf_urls st' = downloaded_pdf_urls st /\
  download_log st' = download_log st /\ fetched st' = fetched st.
Proof.
  intros H.
  by apply discover_link_cases in H as [-> | (h & _ & _ & _ & _ & _ & ->)].
Qed.

Lemma discover_links_downloads (hrefs : list (option string)) :
  forall st,
    let st' := discover_links netloc base_domain hrefs st in
    downloaded_pdf_urls st' = downloaded_pdf_urls st /\
    download_log st' = download_log st /\ fetched st' = fetched st.
Proof.
  induction hrefs as [| href rest IH]; intros st; [done |].
  simpl. destruct (discover_link netloc base_domain href st) as [st1 |] eqn:Hl;
    [| done].
  apply discover_link_downloads in Hl as (Hd & Hlog & Hf).
  destruct (IH st1) as (Hd' & Hlog' & Hf'). simpl in *.
  by rewrite Hd', Hlog', Hf', Hd, Hlog, Hf.
Qed.

(** What one iteration does to the download state: the tasks it runs are
    new URLs, each once; their lines are appended to the log. *)
Lemma crawl_step_downloads (st : crawl_state) (p : page) :
  let st' := crawl_step netloc base_domain st p in
  exists tasks url,
    fetched st' = fetched st ++ tasks /\
    download_log st' = download_log st ++ gather_downloads p tasks url /\
    (tasks <> [] -> head (queue st) = Some url) /\
    NoDup tasks /\
    (forall u, u ∈ tasks -> u ∉ downloaded_pdf_urls st) /\
    (forall u, u ∈ downloaded_pdf_urls st' <->
               u ∈ downloaded_pdf_urls st \/ u ∈ tasks).
Proof.
  assert (Hnone : forall st' : crawl_state,
             fetched st' = fetched st -> download_log st' = download_log st ->
             downloaded_pdf_urls st' = downloaded_pdf_urls st ->
             exists tasks url,
               fetched st' = fetched st ++ tasks /\
               download_log st' = download_log st ++ gather_downloads p tasks url /\
               (tasks <> [] -> head (queue st) = Some url) /\
               NoDup tasks /\
               (forall u, u ∈ tasks -> u ∉ downloaded_pdf_urls st) /\
               (forall u, u ∈ downloaded_pdf_urls st' <->
                          u ∈ downloaded_pdf_urls st \/ u ∈ tasks)).
  { intros st' Hf Hl Hd. exists [], EmptyString.
    rewrite Hf, Hl, Hd, gather_downloads_nil, !app_nil_r.
    repeat split; try done.
    - apply NoDup_nil_2.
    - intros u Hu. by apply elem_of_nil in Hu.
    - by left.
    - intros [Hu | Hu]; [done | by apply elem_of_nil in Hu]. }
  unfold crawl_step.
  destruct (queue st) as [| url rest] eqn:Hqueue; [by apply Hnone |].
  destruct (bool_decide (url ∈ visited_pages (popleft url rest st)));
    [by apply Hnone |].
  destruct (nav_ok p); simpl; [| by apply Hnone].
  destruct (scrape_ok p); simpl; [| by apply Hnone].
  set (st2 := mark_visited url (popleft url rest st)).
  destruct (discover_links_downloads (link_hrefs p) (download_phase p url st2))
    as (Hd & Hl & Hf).
  destruct (download_phase_spec p url st2)
    as (tasks & Hf2 & Hl2 & Hnd & Hnew & Hd2 & _).
  exists tasks, url. rewrite Hd, Hl, Hf, Hf2, Hl2.
  repeat split; try done.
  - by apply Hd2.
  - by apply Hd2.
Qed.

Lemma download_inv_initial (START_URL : string) :
  download_inv (initial_state START_URL).
Proof.
  unfold download_inv. simpl.
  split; [apply NoDup_nil_2 | split; [| split; [apply NoDup_nil_2 |]]].
  - intros u. split; intros Hu.
    + by apply elem_of_nil in Hu.
    + by apply elem_of_empty in Hu.
  - intros u Hu. by apply elem_of_nil in Hu.
Qed.

Lemma crawl_step_download_inv (st : crawl_state) (p : page) :
  download_inv st -> download_inv (crawl_step netloc base_domain st p).
Proof.
  intros (Hnd & Hset & Hlog & Hsub).
  destruct (crawl_step_downloads st p)
    as (tasks & url & Hf & Hl & _ & Htasks & Hnew & Hd).
  unfold download_inv. rewrite Hf, Hl, fmap_app.
  split; [| split; [| split]].
  - apply NoDup_app. split; [done | split; [| done]].
    intros u Hu Hu'. apply Hset in Hu. by apply (Hnew u).
  - intros u. rewrite elem_of_app, Hd, Hset. done.
  - apply NoDup_app. split; [done | split].
    + intros u Hu Hu'. apply gather_downloads_fst in Hu' as [Hu' _].
      apply Hsub, Hset in Hu. by apply (Hnew u).
    + by apply gather_downloads_NoDup.
  - intros u Hu. apply elem_of_app in Hu as [Hu | Hu]; apply elem_of_app.
    + left. by apply Hsub.
    + right. by apply gather_downloads_fst in Hu as [Hu _].
Qed.

Lemma crawl_steps_download_inv (pages : list page) :
  forall st, download_inv st ->
             download_inv (fold_left (crawl_step netloc base_domain) pages st).
Proof.
  induction pages as [| p pages IH]; intros st Hinv; [done |].
  simpl. by apply IH, crawl_step_download_inv.
Qed.

(** A URL in [downloaded_pdf_urls] stays there, and the run adds no
    request and no log line for it. *)
Lemma crawl_steps_settled (pages : list page) (u : string) :
  forall st,
    u ∈ downloaded_pdf_urls st ->
    let st' := fold_left (crawl_step netloc base_domain) pages st in
    u ∈ downloaded_pdf_urls st' /\
    exists tasks records,
      fetched st' = fetched st ++ tasks /\
      download_log st' = download_log st ++ records /\
      u ∉ tasks /\ u ∉ (fst <$> records).
Proof.
  induction pages as [| p pages IH]; intros st Hu.
  - simpl. split; [done |]. exists [], []. rewrite !app_nil_r.
    repeat split; try done; intros H; by apply elem_of_nil in H.
  - simpl.
    destruct (crawl_step_downloads st p)
      as (tasks & url & Hf & Hl & _ & Htasks & Hnew & Hd).
    assert (Hu1 : u ∈ downloaded_pdf_urls (crawl_step netloc base_domain st p))
      by (apply Hd; by left).
    destruct (IH _ Hu1) as (Hu2 & tasks' & records' & Hf' & Hl' & Ht' & Hr').
    split; [done |].
    exists (tasks ++ tasks'), (gather_downloads p tasks url ++ records').
    rewrite Hf', Hl', Hf, Hl, <- !app_assoc. repeat split; try done.
    + intros H. apply elem_of_app in H as [H | H]; [| done].
      by apply (Hnew u).
    + rewrite fmap_app. intros H. apply elem_of_app in H as [H | H]; [| done].
      apply gather_downloads_fst in H as [H _]. by apply (Hnew u).
Qed.

End DownloadFacts.



(** C2, as stated, fails: when the download of a document fails, the
    URL was attempted (the request was issued, the URL is in
    [downloaded_pdf_urls]) and the log has no line for it. *)
Lemma failed_download_leaves_no_record :
  let st := crawl netloc_plain govinfo START_URL [start_page_fetch_fails] in
  fetched st = [cfr_pdf] /\
  elements (downloaded_pdf_urls st) = [cfr_pdf] /\
  download_log st = [].
Proof. vm_compute. done. Qed.

(** C2 (amended). For every document URL attempted in a run the log
    gets at most one line: exactly one, [pdf_url,source_url] with the
    page being processed as source, when the fetch and the write
    succeed, and none, in this iteration or any later one, when they
    fail (a line has no outcome field, and a failure is reported on the
    console logger only).  The log only grows at its end: the lines
    already there stay as they are. *)
Theorem download_log_records
    (netloc : string -> option string) (base_domain START : string)
    (pages : list page) (p : page) :
  let st := crawl netloc base_domain START pages in
  let st' := crawl_step netloc base_domain st p in
  NoDup (fst <$> download_log st') /\
  (forall u, u ∈ (fst <$> download_log st') -> u ∈ fetched st') /\
  exists tasks url records,
    fetched st' = fetched st ++ tasks /\
    (tasks <> [] -> head (queue st) = Some url) /\
    download_log st' = download_log st ++ records /\
    (forall r, r ∈ records -> snd r = url /\ fst r ∈ tasks) /\
    forall u, u ∈ tasks ->
      (fetch_ok p u = true -> (u, url) ∈ records) /\
      (fetch_ok p u = false ->
       forall more,
         u ∉ (fst <$> download_log
                        (fold_left (crawl_step netloc base_domain) more st'))).
Proof.
  intros st st'.
  pose proof (crawl_steps_download_inv netloc base_domain pages
                (initial_state START) (download_inv_initial START)) as Hinv.
  fold (crawl netloc base_domain START pages) in Hinv. fold st in Hinv.
  pose proof (crawl_step_download_inv netloc base_domain st p Hinv) as Hinv'.
  fold st' in Hinv'.
  destruct Hinv as (_ & Hset & _ & Hsub).
  destruct Hinv' as (_ & _ & Hlog' & Hsub').
  split; [done | split; [done |]].
  destruct (crawl_step_downloads netloc base_domain st p)
    as (tasks & url & Hf & Hl & Hurl & Htasks & Hnew & Hd).
  fold st' in Hf, Hl, Hd.
  exists tasks, url, (gather_downloads p tasks url).
  split; [done | split; [done | split; [done | split]]].
  - intros r Hr. apply gather_downloads_elem in Hr as (u & Hu & _ & ->). done.
  - intros u Hu. split.
    + intros Hok. apply gather_downloads_elem. by exists u.
    + intros Hfail more.
      assert (Hu' : u ∈ downloaded_pdf_urls st') by (apply Hd; by right).
      destruct (crawl_steps_settled netloc base_domain more u st' Hu')
        as (_ & tasks' & records' & _ & -> & _ & Hrec).
      rewrite Hl, !fmap_app. intros Hin.
      apply elem_of_app in Hin as [Hin | Hin]; [| done].
      apply elem_of_app in Hin as [Hin | Hin].
      * apply Hsub, Hset in Hin. by apply (Hnew u).
      * apply gather_downloads_fst in Hin as [_ Hok]. congruence.
Qed.

Lemma download_log_records_witness :
  let st := crawl netloc_plain govinfo START_URL [] in
  let st' := crawl_step netloc_plain govinfo st start_page in
  NoDup (fst <$> download_log st') /\
  download_log st' = [(cfr_pdf, START_URL)].
Proof.
  pose proof (download_log_records netloc_plain govinfo START_URL []
                start_page) as H.
  cbv zeta in *. destruct H as (Hnd & _). split; [exact Hnd |].
  vm_compute. reflexivity.
Defined.

(** C5: the link loop of scraper-agent.py has no test for document
    links.  The anchor of a PDF of the base domain is downloaded and
    also appended to the crawl queue; the sibling loop of
    universal_scraper_agent.py keeps such an [href] out of its queue. *)
Theorem pdf_link_enters_frontier :
  let st := crawl netloc_plain govinfo START_URL [start_page] in
  netloc_plain START_URL = Some govinfo /\
  is_document_href cfr_pdf = true /\
  fetched st = [cfr_pdf] /\
  queue st = [cfr_help; cfr_pdf] /\
  universal_link_filter (Some cfr_pdf) = false /\
  universal_link_filter (Some cfr_help) = true.
Proof. vm_compute. done. Qed.

(* ===================================================================== *)
(** * Further properties of the code *)
(* ===================================================================== *)

Section Scoping.
Variable netloc : string -> option string.
Variable base_domain : string.

Lemma discover_links_enqueued (Q : string -> Prop)
    (hrefs : list (option string)) :
  (forall u, in_domain_href netloc base_domain u -> Q u) ->
  forall st, (forall u, u ∈ enqueued st -> Q u) ->
             forall u, u ∈ enqueued (discover_links netloc base_domain hrefs st) ->
                       Q u.
Proof.
  intros HQ. induction hrefs as [| href rest IH]; intros st Hst; [done |].
  simpl. destruct (discover_link netloc base_domain href st) as [st' |] eqn:Hl;
    [| done].
  apply IH.
  apply discover_link_cases in Hl as [-> | (h & _ & Hp & Hn & _ & _ & ->)];
    [done |].
  simpl. intros u Hu. apply elem_of_app in Hu as [Hu | Hu]; [by apply Hst |].
  apply list_elem_of_singleton in Hu. subst u. apply HQ. by split.
Qed.

Lemma crawl_step_enqueued (Q : string -> Prop) (st : crawl_state) (p : page) :
  (forall u, in_domain_href netloc base_domain u -> Q u) ->
  (forall u, u ∈ enqueued st -> Q u) ->
  forall u, u ∈ enqueued (crawl_step netloc base_domain st p) -> Q u.
Proof.
  intros HQ Hst. unfold crawl_step.
  destruct (queue st) as [| url rest]; [done |].
  destruct (bool_decide _); [done |].
  destruct (nav_ok p); simpl; [| done].
  destruct (scrape_ok p); simpl; [| done].
  apply discover_links_enqueued; [done |].
  destruct (download_phase_frontier p url (mark_visited url (popleft url rest st)))
    as (_ & _ & _ & _ & ->). done.
Qed.

Lemma crawl_steps_enqueued (Q : string -> Prop) (pages : list page) :
  (forall u, in_domain_href netloc base_domain u -> Q u) ->
  forall st, (forall u, u ∈ enqueued st -> Q u) ->
             forall u,
               u ∈ enqueued (fold_left (crawl_step netloc base_domain) pages st) ->
               Q u.
Proof.
  intros HQ. induction pages as [| p pages IH]; intros st Hst; [done |].
  simpl. apply IH. by apply crawl_step_enqueued.
Qed.

End Scoping.

(** X1. Domain scoping of the frontier: every URL a run ever puts in the
    queue, the start URL apart, begins with [http] and has the base
    domain as its [netloc]. *)
Theorem enqueued_in_domain
    (netloc : string -> option string) (base_domain START : string)
    (pages : list page) (u : string) :
  u ∈ enqueued (crawl netloc base_domain START pages) ->
  u = START \/
  (String.prefix "http" u = true /\ netloc u = Some base_domain).
Proof.
  apply (crawl_steps_enqueued netloc base_domain
           (fun u => u = START \/
                     (String.prefix "http" u = true /\
                      netloc u = Some base_domain))).
  - intros v Hv. right. exact Hv.
  - simpl. intros v Hv. apply list_elem_of_singleton in Hv. by left.
Qed.

Lemma enqueued_in_domain_witness :
  cfr_help = START_URL \/
  (String.prefix "http" cfr_help = true /\ netloc_plain cfr_help = Some govinfo).
Proof.
  apply (enqueued_in_domain netloc_plain govinfo START_URL [start_page] cfr_help).
  vm_compute. apply list_elem_of_In. right. left. reflexivity.
Defined.

Lemma chunk_count_le_len {A : Type} (html : list A) (size overlap : Z) :
  overlap < size -> chunk_count html size overlap <= len html.
Proof.
  intros Hcfg. pose proof (len_nonneg html).
  destruct (ceil_div_bounds (len html) (size - overlap)) as (? & ? & ?);
    [lia | lia |].
  fold (chunk_count html size overlap) in *. nia.
Qed.

(* ===================================================================== *)
(** * What leaves [detect_selectors_in_chunks] *)
(* ===================================================================== *)

(** [gather]: the task found by [first_raised] raised, and no raising
    task has a smaller rank; there is none exactly when every task
    returned. *)
Lemma first_raised_spec {E A : Type} (rank : nat -> nat)
    (outcomes : list (E + A)) :
  forall k,
    match first_raised rank k outcomes with
    | None => forall i o, outcomes !! i = Some o -> exists a, o = inr a
    | Some (j, e) =>
        exists i, j = (k + i)%nat /\ outcomes !! i = Some (inl e) /\
                  forall i' e', outcomes !! i' = Some (inl e') ->
                                (rank j <= rank (k + i')%nat)%nat
    end.
Proof.
  induction outcomes as [| o rest IH]; intros k; simpl.
  - intros i o Hi. by rewrite lookup_nil in Hi.
  - specialize (IH (S k)).
    destruct (first_raised rank (S k) rest) as [[j e'] |].
    + destruct IH as (i & -> & Hi & Hmin).
      assert (Hlater : exists i0, (S k + i = k + i0)%nat /\
                (o :: rest) !! i0 = Some (inl e') /\
                forall i' e0, rest !! i' = Some (inl e0) ->
                  (rank (S k + i) <= rank (k + S i'))%nat).
      { exists (S i). split; [lia | split; [done |]].
        intros i' e0 Hi'. replace (k + S i')%nat with (S k + i')%nat by lia.
        by apply (Hmin i' e0). }
      destruct Hlater as (i0 & Hj & Hi0 & Hmin').
      destruct o as [e | a].
      * destruct (rank (S k + i) <? rank k)%nat eqn:Hlt.
        -- apply Nat.ltb_lt in Hlt. exists i0. split; [done | split; [done |]].
           intros [| i'] e0 Hi'; simpl in Hi'.
           ++ rewrite Nat.add_0_r. lia.
           ++ by apply (Hmin' i' e0).
        -- apply Nat.ltb_ge in Hlt. exists 0%nat.
           split; [lia | split; [done |]].
           intros [| i'] e0 Hi'; simpl in Hi'.
           ++ by rewrite Nat.add_0_r.
           ++ etrans; [exact Hlt |]. by apply (Hmin' i' e0).
      * exists i0. split; [done | split; [done |]].
        intros [| i'] e0 Hi'; simpl in Hi'; [done |].
        by apply (Hmin' i' e0).
    + destruct o as [e | a].
      * exists 0%nat. split; [lia | split; [done |]].
        intros [| i'] e0 Hi'; simpl in Hi'.
        -- by rewrite Nat.add_0_r.
        -- by destruct (IH i' _ Hi') as (a & ?).
      * intros [| i] o Hi; simpl in Hi.
        -- inversion Hi. by exists a.
        -- by apply (IH i).
Qed.

Lemma results_of_returned {E A : Type} (outcomes : list (E + A)) :
  (forall i o, outcomes !! i = Some o -> exists a, o = inr a) ->
  outcomes = inr <$> results_of outcomes.
Proof.
  induction outcomes as [| o rest IH]; intros Hall; [done |].
  destruct (Hall 0%nat o eq_refl) as (a & ->).
  unfold results_of. simpl. f_equal. apply IH.
  intros i o Hi. by apply (Hall (S i)).
Qed.

(** [gather] returns the results of all the tasks, or raises what the
    raising task that ended first raised. *)
Lemma gather_spec {E A : Type} (rank : nat -> nat) (outcomes : list (E + A)) :
  match gather rank outcomes with
  | inr results => outcomes = inr <$> results
  | inl e =>
      exists k, outcomes !! k = Some (inl e) /\
                forall j e', outcomes !! j = Some (inl e') ->
                             (rank k <= rank j)%nat
  end.
Proof.
  unfold gather. pose proof (first_raised_spec rank outcomes 0) as H.
  destruct (first_raised rank 0 outcomes) as [[j e] |].
  - destruct H as (i & -> & Hi & Hmin). exists i. split; [done |].
    intros j e' Hj. by apply (Hmin j e').
  - by apply results_of_returned.
Qed.

Section DetectFacts.
Variable json_loads : string -> exn + pyval.

(** A response that is no string contributes what [None] does: a false
    value is skipped, and for a true one [re.search] raises inside the
    [try]. *)
Lemma parse_result_as_text (v : pyval) (s : pyset) :
  parse_result json_loads v s = parse_response json_loads (as_text v) s.
Proof.
  unfold parse_result, parse_response.
  destruct v as [| b | z | f | r | items | items]; simpl; try done.
  - by destruct b.
  - by destruct (z =? 0).
  - by destruct (PrimFloat.eqb f PrimFloat.zero).
  - by destruct items.
  - by destruct items.
Qed.

Lemma reduce_results_as_text (api_responses : list pyval) :
  forall s,
    reduce_results json_loads api_responses s
    = reduce_responses json_loads (as_text <$> api_responses) s.
Proof.
  induction api_responses as [| v rest IH]; intros s; [done |].
  simpl. rewrite parse_result_as_text.
  destruct (parse_response json_loads (as_text v) s) as [s' [e | u]]; [done |].
  apply IH.
Qed.

End DetectFacts.

(** X2. What leaves [detect_selectors_in_chunks], for every page,
    whatever the HTTP exchanges and the decoder do and in whatever order
    the calls end.  Under the configured [CHUNK_SIZE] and
    [CHUNK_OVERLAP] the chunk loop ends and one call is made per chunk.
    No exception of the parsing loop leaves the function.  An exception
    does leave it when a call raises one ([call_llm_api] catches
    [RequestException] only: a body that is no JSON object makes [get]
    raise [AttributeError]): it is the exception of the raising call
    that ended first.  Otherwise the function returns the set reduced
    from the texts of the answers, an answer that is no string counting
    for nothing. *)
Theorem detect_selectors_in_chunks_outcome
    (json_loads : string -> exn + pyval)
    (rank : nat -> nat) (exchanges : nat -> exchange)
    (full_html : list ascii) :
  let n := Z.to_nat (chunk_count full_html CHUNK_SIZE CHUNK_OVERLAP) in
  let call := fun k => call_llm_api (exchanges k) in
  exists r,
    detect_selectors_in_chunks json_loads rank exchanges full_html = Some r /\
    match r with
    | inr all_selectors =>
        exists api_responses,
          length api_responses = n /\
          (forall k v, api_responses !! k = Some v -> call k = inr v) /\
          all_selectors
          = fst (reduce_responses json_loads (as_text <$> api_responses) [])
    | inl (inl e) =>
        exists k, (k < n)%nat /\ call k = inl e /\
                  forall j e', (j < n)%nat -> call j = inl e' ->
                               (rank k <= rank j)%nat
    | inl (inr _) => False
    end.
Proof.
  intros n call. unfold detect_selectors_in_chunks.
  rewrite chunk_html_windows.
  2: { unfold CHUNK_SIZE, CHUNK_OVERLAP. lia. }
  2: { pose proof (chunk_count_le_len full_html CHUNK_SIZE CHUNK_OVERLAP) as Hle.
       unfold len in Hle. unfold CHUNK_SIZE, CHUNK_OVERLAP in *. lia. }
  set (html_chunks := chunk_windows full_html CHUNK_SIZE CHUNK_OVERLAP).
  assert (Hlen : length html_chunks = n) by apply chunk_windows_length.
  set (tasks := imap (fun k _ => call_llm_api (exchanges k)) html_chunks).
  assert (Htask : forall k o, tasks !! k = Some o -> (k < n)%nat /\ call k = o).
  { intros k o Hk. subst tasks. rewrite list_lookup_imap in Hk.
    destruct (html_chunks !! k) as [c |] eqn:Hc; [| done].
    apply lookup_lt_Some in Hc. simpl in Hk. inversion Hk. split; [lia | done]. }
  assert (Hcall : forall k, (k < n)%nat -> tasks !! k = Some (call k)).
  { intros k Hk. subst tasks. rewrite list_lookup_imap.
    destruct (lookup_lt_is_Some_2 html_chunks k) as (c & Hc); [lia |].
    by rewrite Hc. }
  pose proof (gather_spec rank tasks) as Hg.
  destruct (gather rank tasks) as [e | api_responses].
  - eexists. split; [done |]. simpl.
    destruct Hg as (k & Hk & Hmin).
    destruct (Htask k _ Hk) as (Hlt & Hck).
    exists k. split; [done | split; [done |]].
    intros j e' Hj Hcj. apply (Hmin j e'). rewrite (Hcall j Hj). by rewrite Hcj.
  - rewrite reduce_results_as_text.
    pose proof (reduce_responses_returns json_loads
                  (as_text <$> api_responses) []) as Hret.
    destruct (reduce_responses json_loads (as_text <$> api_responses) [])
      as [s [e | u]] eqn:Hred; [done |].
    eexists. split; [done |]. simpl.
    exists api_responses. split; [| split; [| by rewrite Hred]].
    + rewrite <- Hlen. subst tasks.
      apply (f_equal length) in Hg.
      rewrite length_imap, length_fmap in Hg. done.
    + intros k v Hk.
      assert (Ht : tasks !! k = Some (inr v)).
      { rewrite Hg, list_lookup_fmap, Hk. done. }
      by destruct (Htask k _ Ht) as (_ & ->).
Qed.

(** A 2xx answer whose body is a JSON array: [get] raises, and the
    exception leaves [detect_selectors_in_chunks]. *)
Example attribute_error_leaves_detect_selectors :
  detect_selectors_in_chunks json_loads_examples (fun _ => 0%nat)
    (fun _ => Body (PList [PStr "a.pdf-link"])) (chars "<a>x</a>")
  = Some (inl (inl AttributeError)).
Proof. vm_compute. reflexivity. Qed.

Lemma discover_links_sets (netloc : string -> option string)
    (base_domain : string) (hrefs : list (option string)) :
  forall st,
    visited_pages (discover_links netloc base_domain hrefs st) = visited_pages st.
Proof.
  induction hrefs as [| href rest IH]; intros st; [done |].
  simpl. destruct (discover_link netloc base_domain href st) as [st' |] eqn:Hl;
    [| done].
  rewrite IH.
  by apply discover_link_cases in Hl as [-> | (h & _ & _ & _ & _ & _ & ->)].
Qed.

(** X3. The visited set and the set of attempted documents only grow:
    one iteration of the loop removes no URL from either. *)
Theorem visited_and_downloaded_grow
    (netloc : string -> option string) (base_domain : string)
    (st : crawl_state) (p : page) :
  let st' := crawl_step netloc base_domain st p in
  visited_pages st ⊆ visited_pages st' /\
  downloaded_pdf_urls st ⊆ downloaded_pdf_urls st'.
Proof.
  intros st'. split.
  - subst st'. unfold crawl_step.
    destruct (queue st) as [| url rest]; [done |].
    destruct (bool_decide _); [done |].
    destruct (nav_ok p); simpl; [| done].
    destruct (scrape_ok p); simpl; [| set_solver].
    rewrite discover_links_sets.
    destruct (download_phase_frontier p url (mark_visited url (popleft url rest st)))
      as (-> & _). simpl. set_solver.
  - destruct (crawl_step_downloads netloc base_domain st p)
      as (tasks & url & _ & _ & _ & _ & _ & Hd).
    intros u Hu. apply Hd. by left.
Qed.

(** [main] reaches only states that satisfy both invariants. *)
Lemma main_invariants (netloc : string -> option string) (START : string)
    (pages : list page) (st : crawl_state) :
  main netloc START pages = Some st -> frontier_inv st /\ download_inv st.
Proof.
  unfold main. destruct (netloc START) as [base_domain |]; [| done].
  intros [= <-]. split.
  - apply crawl_steps_frontier_inv, frontier_inv_initial.
  - apply crawl_steps_download_inv, download_inv_initial.
Qed.

(* ===================================================================== *)
(** * File names *)
(* ===================================================================== *)

Section FileNames.
Local Open Scope string_scope.
Local Open Scope nat_scope.

Lemma string_app_cons (a : ascii) (s t : string) :
  String a s ++ t = String a (s ++ t).
Proof. reflexivity. Qed.

Lemma string_app_nil_l (s : string) : "" ++ s = s.
Proof. reflexivity. Qed.

Ltac str_simpl :=
  repeat (rewrite string_app_cons || rewrite string_app_nil_l); simpl.

Lemma string_app_nil_r (s : string) : s ++ "" = s.
Proof. induction s as [| a s IH]; str_simpl; [done | by rewrite IH]. Qed.

Lemma string_app_assoc (s t u : string) : (s ++ t) ++ u = s ++ (t ++ u).
Proof. induction s as [| a s IH]; str_simpl; [done | by rewrite IH]. Qed.

Lemma string_length_app (s t : string) :
  String.length (s ++ t) = String.length s + String.length t.
Proof. induction s as [| a s IH]; str_simpl; [done | by rewrite IH]. Qed.

Lemma substring_whole (s : string) : substring 0 (String.length s) s = s.
Proof. induction s as [| a s IH]; simpl; [done | by rewrite IH]. Qed.

Lemma substring_after_prefix (pre suf : string) :
  substring (String.length pre) (String.length suf) (pre ++ suf) = suf.
Proof.
  induction pre as [| a pre IH]; str_simpl; [apply substring_whole | done].
Qed.

Lemma substring_split (s : string) : forall k,
  k <= String.length s ->
  substring 0 k s ++ substring k (String.length s - k) s = s.
Proof.
  induction s as [| a s IH]; intros k Hk.
  - destruct k; [done | simpl in Hk; lia].
  - destruct k as [| k]; simpl.
    + str_simpl. by rewrite substring_whole.
    + str_simpl. rewrite IH; [done | simpl in Hk; lia].
Qed.

(** [s.endswith(suffix)] says that [s] is something followed by
    [suffix]. *)
Lemma endswith_iff (s suf : string) :
  endswith s suf = true <-> exists pre, s = pre ++ suf.
Proof.
  unfold endswith. rewrite andb_true_iff, Nat.leb_le, String.eqb_eq. split.
  - intros [Hle Hsub].
    exists (substring 0 (String.length s - String.length suf) s).
    pose proof (substring_split s (String.length s - String.length suf)) as H.
    replace (String.length s - (String.length s - String.length suf))
      with (String.length suf) in H by lia.
    rewrite Hsub in H. symmetry. apply H. lia.
  - intros [pre ->]. rewrite string_length_app. split; [lia |].
    replace (String.length pre + String.length suf - String.length suf)
      with (String.length pre) by lia.
    apply substring_after_prefix.
Qed.

Lemma has_char_app (c : ascii) (s t : string) :
  has_char c (s ++ t) = has_char c s || has_char c t.
Proof.
  induction s as [| a s IH]; str_simpl; [done |]. by rewrite IH, orb_assoc.
Qed.

Lemma after_last_none (c : ascii) (s : string) :
  has_char c s = false -> after_last c s = s.
Proof.
  destruct s as [| a s]; simpl; [done |].
  intros H. apply orb_false_iff in H as [Ha Hs]. by rewrite Hs, Ha.
Qed.

Lemma after_last_app (c : ascii) (u v : string) :
  has_char c v = false -> after_last c (u ++ String c v) = v.
Proof.
  intros Hv. induction u as [| a u IH]; str_simpl.
  - by rewrite Hv, Ascii.eqb_refl.
  - rewrite has_char_app. simpl. rewrite Ascii.eqb_refl, orb_true_r. done.
Qed.

Lemma after_last_app_tail (c : ascii) (u v : string) :
  has_char c v = false -> after_last c (u ++ v) = after_last c u ++ v.
Proof.
  intros Hv. induction u as [| a u IH]; str_simpl.
  - by apply after_last_none.
  - rewrite has_char_app, Hv, orb_false_r.
    destruct (has_char c u); [done |]. by destruct (Ascii.eqb a c).
Qed.

Lemma before_first_app (c : ascii) (x q : string) :
  before_first c (x ++ String c q) = before_first c x.
Proof.
  unfold before_first. induction x as [| a x IH]; str_simpl.
  - by rewrite Ascii.eqb_refl.
  - destruct (Ascii.eqb c a); [done | by rewrite IH].
Qed.

Lemma sanitize_app (s t : string) :
  sanitize (s ++ t) = sanitize s ++ sanitize t.
Proof. induction s as [| a s IH]; str_simpl; [done | by rewrite IH]. Qed.

Lemma lower_app (s t : string) : lower (s ++ t) = lower s ++ lower t.
Proof. induction s as [| a s IH]; str_simpl; [done | by rewrite IH]. Qed.

Lemma sanitize_length (s : string) :
  String.length (sanitize s) = String.length s.
Proof. induction s as [| a s IH]; simpl; [done | by rewrite IH]. Qed.

Lemma lower_sanitize_char (a : ascii) :
  lower_ascii (if illegal_char a then "_"%char else a)
  = (if illegal_char (lower_ascii a) then "_"%char else lower_ascii a).
Proof. destruct a as [[] [] [] [] [] [] [] []]; reflexivity. Qed.

Lemma lower_sanitize (s : string) : lower (sanitize s) = sanitize (lower s).
Proof.
  induction s as [| a s IH]; simpl; [done |].
  by rewrite lower_sanitize_char, IH.
Qed.

Lemma sanitize_legal (s : string) :
  all_chars (fun a => negb (illegal_char a)) (sanitize s) = true.
Proof.
  induction s as [| a s IH]; simpl; [done |]. rewrite IH, andb_true_r.
  destruct (illegal_char a) eqn:Ha; [done | by rewrite Ha].
Qed.

Lemma sanitize_fixed (s : string) :
  all_chars (fun a => negb (illegal_char a)) s = true -> sanitize s = s.
Proof.
  induction s as [| a s IH]; simpl; [done |].
  intros H. apply andb_true_iff in H as [Ha Hs].
  apply negb_true_iff in Ha. by rewrite Ha, IH.
Qed.

Lemma sanitize_idempotent (s : string) : sanitize (sanitize s) = sanitize s.
Proof. apply sanitize_fixed, sanitize_legal. Qed.

Lemma legal_no_slash (s : string) :
  all_chars (fun a => negb (illegal_char a)) s = true ->
  String.prefix "/" s = false /\ has_char "/" s = false /\
  has_char "\" s = false.
Proof.
  induction s as [| a s IH]; simpl; [done |].
  intros H. apply andb_true_iff in H as [Ha Hs].
  destruct (IH Hs) as (_ & Hslash & Hback). rewrite Hslash, Hback.
  destruct a as [[] [] [] [] [] [] [] []]; try discriminate Ha; done.
Qed.

(** The name computed in lines 149-151 always ends in [.pdf], in any
    letter case. *)
Lemma pdf_file_name_suffix (pdf_url : string) :
  endswith (lower (pdf_file_name pdf_url)) ".pdf" = true.
Proof.
  unfold pdf_file_name.
  set (n := if str_falsy _ then _ else _).
  destruct (endswith (lower n) ".pdf") eqn:Hn; [done |].
  apply endswith_iff. exists (lower n). by rewrite lower_app.
Qed.

Lemma os_path_join_relative (dir name : string) :
  str_falsy dir = false -> endswith dir "/" = false ->
  String.prefix "/" name = false ->
  os_path_join dir name = dir ++ "/" ++ name.
Proof. intros Hd He Hn. unfold os_path_join. by rewrite Hn, Hd, He. Qed.

(** X4. Where a document is written: the path is [DOWNLOAD_DIR], a
    slash, and a name that is not empty, ends in [.pdf] (in any letter
    case) and holds no slash, backslash or other character of the
    replaced class; so every document lands directly in the download
    directory, whatever the URL. *)
Theorem pdf_file_path_in_download_dir (pdf_url : string) :
  let name := sanitize (pdf_file_name pdf_url) in
  pdf_file_path pdf_url = (DOWNLOAD_DIR ++ "/" ++ name)%string /\
  name <> EmptyString /\
  endswith (lower name) ".pdf" = true /\
  all_chars (fun a => negb (illegal_char a)) name = true /\
  has_char "/" name = false /\ has_char "\" name = false.
Proof.
  intros name.
  pose proof (sanitize_legal (pdf_file_name pdf_url)) as Hlegal. fold name in Hlegal.
  destruct (legal_no_slash name Hlegal) as (Hprefix & Hslash & Hback).
  assert (Hsuffix : endswith (lower name) ".pdf" = true).
  { subst name. rewrite lower_sanitize.
    pose proof (pdf_file_name_suffix pdf_url) as H.
    apply endswith_iff in H as [pre Hpre]. rewrite Hpre, sanitize_app.
    apply endswith_iff. by exists (sanitize pre). }
  split; [| split; [| done]].
  - unfold pdf_file_path. fold name. by apply os_path_join_relative.
  - intros Hempty. rewrite Hempty in Hsuffix. done.
Qed.

Lemma file_stem_query (u q : string) :
  has_char "/" q = false ->
  before_first "?" (after_last "/" (u ++ "?" ++ q))
  = before_first "?" (after_last "/" u).
Proof.
  intros H. str_simpl.
  rewrite after_last_app_tail by (simpl; by rewrite H).
  apply before_first_app.
Qed.

Lemma file_stem_directory (dir seg : string) :
  has_char "/" seg = false ->
  after_last "/" (dir ++ "/" ++ seg) = after_last "/" seg.
Proof.
  intros H. str_simpl. rewrite after_last_app by done.
  by rewrite after_last_none.
Qed.

(** X5. The stored name depends only on the last path segment of the
    URL, without its query: a query string that holds no slash does not
    change the path, and neither does anything before the last slash.
    Two documents whose URLs differ only there are written to the same
    file. *)
Theorem pdf_file_path_collisions (u q dir seg : string) :
  (has_char "/" q = false ->
   pdf_file_path (u ++ "?" ++ q) = pdf_file_path u) /\
  (has_char "/" seg = false ->
   pdf_file_path (dir ++ "/" ++ seg) = pdf_file_path seg).
Proof.
  split; intros H; unfold pdf_file_path, pdf_file_name.
  - by rewrite file_stem_query.
  - by rewrite file_stem_directory.
Qed.

Lemma pdf_file_path_collisions_witness :
  pdf_file_path "https://a.example/2023/report.pdf?rev=2"
  = pdf_file_path "https://a.example/2023/report.pdf" /\
  pdf_file_path "https://b.example/2024/report.pdf"
  = pdf_file_path "report.pdf".
Proof.
  split.
  - apply (pdf_file_path_collisions "https://a.example/2023/report.pdf"
             "rev=2" "" ""). reflexivity.
  - apply (pdf_file_path_collisions "" "" "https://b.example/2024"
             "report.pdf"). reflexivity.
Defined.

(** X6. The snapshot of a page is written directly in
    [SCRAPED_PAGES_DIR], under the URL with every character of the
    replaced class turned into an underscore and [.html] appended: the
    name is five characters longer than the URL and holds no slash; and
    since the replacement forgets which character stood there, a URL
    and its replaced form (and so any two URLs that differ only in such
    characters) share one snapshot file. *)
Theorem snapshot_path_shape (url : string) :
  snapshot_path url
  = (SCRAPED_PAGES_DIR ++ "/" ++ sanitize url ++ ".html")%string /\
  String.length (safe_filename url) = (String.length url + 5)%nat /\
  has_char "/" (safe_filename url) = false /\
  safe_filename (sanitize url) = safe_filename url /\
  (all_chars (fun a => negb (illegal_char a)) url = true ->
   safe_filename url = (url ++ ".html")%string).
Proof.
  assert (Hlegal : all_chars (fun a => negb (illegal_char a))
                     (safe_filename url) = true).
  { unfold safe_filename.
    rewrite <- (sanitize_fixed ".html") by reflexivity.
    rewrite <- sanitize_app. apply sanitize_legal. }
  destruct (legal_no_slash _ Hlegal) as (Hprefix & Hslash & _).
  split; [| split; [| split; [done | split]]].
  - unfold snapshot_path. by rewrite os_path_join_relative.
  - unfold safe_filename. rewrite string_length_app, sanitize_length. done.
  - unfold safe_filename. by rewrite sanitize_idempotent.
  - intros H. unfold safe_filename. by rewrite sanitize_fixed.
Qed.

Lemma snapshot_path_shape_witness :
  safe_filename "cfr_2024" = "cfr_2024.html"%string.
Proof.
  apply (snapshot_path_shape "cfr_2024"). reflexivity.
Defined.

End FileNames.

(* ===================================================================== *)
(** * Chunk splitter: what any returned list looks like *)
(* ===================================================================== *)

Lemma chunk_loop_more_fuel {A : Type} (html : list A) (size overlap : Z)
    (fuel : nat) :
  forall start chunks result,
    chunk_loop fuel html size overlap start chunks = Some result ->
    forall extra : nat,
      chunk_loop (fuel + extra) html size overlap start chunks = Some result.
Proof.
  induction fuel as [| fuel IH]; intros start chunks result H extra.
  - simpl in H. destruct (Z.ltb_spec start (len html)); [done |].
    inversion H; subst. by apply chunk_loop_exit.
  - destruct (Z_lt_le_dec start (len html)) as [Hin | Hout].
    + rewrite chunk_loop_iter in H by done.
      replace (S fuel + extra)%nat with (S (fuel + extra)) by lia.
      rewrite chunk_loop_iter by done. by apply IH.
    + rewrite chunk_loop_exit in H by done. inversion H; subst.
      by apply chunk_loop_exit.
Qed.

(** Whatever the fuel, a returned list is the list of windows. *)
Lemma chunk_html_returned {A : Type} (html : list A) (size overlap : Z)
    (fuel : nat) (chunks : list (list A)) :
  overlap < size ->
  chunk_html fuel html size overlap = Some chunks ->
  chunks = chunk_windows html size overlap.
Proof.
  intros Hcfg H. unfold chunk_html in H.
  apply (chunk_loop_more_fuel _ _ _ _ _ _ _) with
    (extra := Z.to_nat (chunk_count html size overlap)) in H.
  fold (chunk_html (fuel + Z.to_nat (chunk_count html size overlap))
          html size overlap) in H.
  rewrite chunk_html_windows in H by (done || lia). congruence.
Qed.

(** X7. Under a valid configuration every chunk the splitter returns is
    non-empty and has at most [size] characters, and the number of
    chunks is exactly [ceil(len(html) / (size - overlap))]: each request
    to the oracle carries between one and [CHUNK_SIZE] characters. *)
Theorem chunk_html_chunk_sizes {A : Type} (html : list A) (size overlap : Z)
    (fuel : nat) (chunks : list (list A)) :
  0 <= overlap -> overlap < size ->
  chunk_html fuel html size overlap = Some chunks ->
  len chunks = ceil_div (len html) (size - overlap) /\
  forall c, c ∈ chunks -> 1 <= len c <= size.
Proof.
  intros Hov Hcfg H. apply chunk_html_returned in H; [| done]. subst chunks.
  pose proof (len_nonneg html) as Hn.
  pose proof (chunk_count_nonneg html size overlap Hcfg) as Hc0.
  destruct (ceil_div_bounds (len html) (size - overlap)) as (_ & Hc1 & Hc2);
    [lia | lia |].
  fold (chunk_count html size overlap) in Hc1, Hc2.
  split.
  - unfold len at 1. rewrite chunk_windows_length.
    fold (chunk_count html size overlap). lia.
  - intros c Hc. apply list_elem_of_lookup in Hc as [k Hk].
    pose proof (lookup_lt_Some _ _ _ Hk) as Hlt.
    rewrite chunk_windows_length in Hlt.
    rewrite chunk_windows_lookup in Hk by done. inversion Hk; subst c.
    rewrite chunk_at_length by done. unfold chunk_end, chunk_start. nia.
Qed.

Lemma chunk_html_chunk_sizes_witness :
  len [chars "abc"; chars "bcd"; chars "cd"; chars "d"] = ceil_div 4 1 /\
  1 <= len (chars "cd") <= 3.
Proof.
  destruct (chunk_html_chunk_sizes (chars "abcd") 3 2 8
              [chars "abc"; chars "bcd"; chars "cd"; chars "d"])
    as [Hcount Hsizes]; [lia | lia | reflexivity |].
  split; [exact Hcount |].
  apply Hsizes. apply list_elem_of_In. right. right. left. reflexivity.
Defined.

(* ===================================================================== *)
(** * Merging the selectors of the responses *)
(* ===================================================================== *)

Section Merge.
Variable json_loads : string -> exn + pyval.

Lemma parse_response_adds (result_str : option string) (s : pyset) :
  parse_response json_loads result_str s
  = (add_each (response_candidates json_loads result_str) s, inr tt).
Proof.
  unfold parse_response, response_candidates, detect_selectors, parse_try_body.
  destruct result_str as [r |]; [| done].
  destruct (str_falsy r); [done |].
  destruct (re_search r) as [j |]; [| done].
  destruct (json_loads j) as [e | data]; [done |].
  rewrite add_selectors_prefix. simpl.
  assert (Hsame : selectors_list_of data
                  = match data with
                    | PDict items => first_list_value items
                    | PList l => l
                    | _ => []
                    end) by (by destruct data).
  rewrite Hsame. by destruct (forallb hashable _).
Qed.

Lemma add_each_app (l k : list pyval) (s : pyset) :
  add_each (l ++ k) s = add_each k (add_each l s).
Proof. unfold add_each. apply fold_left_app. Qed.

Lemma reduce_responses_candidates (api_responses : list (option string)) :
  forall s : pyset,
    reduce_responses json_loads api_responses s
    = (add_each (concat (map (response_candidates json_loads) api_responses)) s,
       inr tt).
Proof.
  induction api_responses as [| r rest IH]; intros s; [done |].
  simpl. rewrite parse_response_adds, IH. by rewrite add_each_app.
Qed.

End Merge.

Lemma py_eq_str (a : string) (y : pyval) :
  py_eq (PStr a) y = true <-> y = PStr a.
Proof.
  destruct y; simpl; try (split; [discriminate | intros H; discriminate H]).
  rewrite String.eqb_eq. split; [by intros -> | by intros [= ->]].
Qed.

Lemma py_in_str (a : string) (s : pyset) :
  py_in (PStr a) s = true <-> In (PStr a) s.
Proof.
  unfold py_in. rewrite existsb_exists. split.
  - intros (y & Hy & Heq). apply py_eq_str in Heq. by subst y.
  - intros H. exists (PStr a). split; [done | by apply py_eq_str].
Qed.

Lemma add_each_origin (l : list pyval) : forall (s : pyset) y,
  In y (add_each l s) -> In y s \/ In y l.
Proof.
  induction l as [| x l IH]; intros s y Hy; [by left |].
  rewrite add_each_cons in Hy. apply IH in Hy as [Hy | Hy]; [| right; by right].
  destruct (py_in x s); [by left |].
  apply in_app_or in Hy as [Hy | [-> | []]]; [by left | right; by left].
Qed.

Lemma add_each_str (l : list pyval) (s : pyset) (a : string) :
  In (PStr a) (add_each l s) <-> In (PStr a) s \/ In (PStr a) l.
Proof.
  split; [apply add_each_origin |]. intros [H | H].
  - destruct (add_each_extends l s) as [t ->]. apply in_or_app. by left.
  - apply add_each_member with (s := s) in H as [H | H]; [done |].
    by apply py_in_str.
Qed.

Lemma strings_of_elem (a : string) (s : pyset) :
  a ∈ strings_of s <-> In (PStr a) s.
Proof.
  unfold strings_of. rewrite list_elem_of_omap. split.
  - intros (v & Hv & Heq). destruct v; try discriminate.
    inversion Heq; subst. by apply list_elem_of_In.
  - intros H. exists (PStr a). split; [by apply list_elem_of_In | done].
Qed.

Lemma add_each_strings_NoDup (l : list pyval) : forall s : pyset,
  NoDup (strings_of s) -> NoDup (strings_of (add_each l s)).
Proof.
  induction l as [| x l IH]; intros s Hs; [done |].
  rewrite add_each_cons. apply IH.
  destruct (py_in x s) eqn:Hin; [done |].
  unfold strings_of. rewrite omap_app. apply NoDup_app.
  split; [done | split].
  - intros a Ha Hx. destruct x; simpl in Hx; try by apply elem_of_nil in Hx.
    apply list_elem_of_singleton in Hx. subst a.
    apply strings_of_elem, py_in_str in Ha. congruence.
  - destruct x; simpl; apply NoDup_nil_2 || apply NoDup_singleton.
Qed.

(** X8. Merging is a union with exact de-duplication of strings: after
    the loop over the responses of a page, a string selector is in the
    set exactly when some response contributes it, and no string is in
    the set twice, however many chunks proposed it and in whatever
    order the responses are read. *)
Theorem selector_merge_is_union
    (json_loads : string -> exn + pyval)
    (api_responses : list (option string)) :
  let all_selectors := fst (reduce_responses json_loads api_responses []) in
  (forall a,
      In (PStr a) all_selectors <->
      exists r, In r api_responses /\
                In (PStr a) (response_candidates json_loads r)) /\
  NoDup (strings_of all_selectors).
Proof.
  intros all_selectors. subst all_selectors.
  rewrite reduce_responses_candidates. simpl. split.
  - intros a. rewrite add_each_str, in_concat. split.
    + intros [[] | (l & Hl & Ha)]. apply in_map_iff in Hl as (r & <- & Hr).
      by exists r.
    + intros (r & Hr & Ha). right.
      exists (response_candidates json_loads r). split; [| done].
      by apply in_map.
  - apply add_each_strings_NoDup. apply NoDup_nil_2.
Qed.

(** X9. The two parsers read a response alike: what scraper-agent.py
    adds to the selector set for one response is the list that
    [detect_selectors] of universal_scraper_agent.py returns for the
    same text, taken up to its first unhashable element and with the
    elements already in the set left out. *)
Theorem parsers_agree
    (json_loads : string -> exn + pyval) (r : string) (s : pyset) :
  parse_response json_loads (Some r) s
  = (add_each (hashable_prefix (detect_selectors json_loads r)) s, inr tt).
Proof. apply (parse_response_adds json_loads (Some r)). Qed.

(* ===================================================================== *)
(** * The crawl loop: where it goes and what the log names *)
(* ===================================================================== *)

Section Provenance.
Variable netloc : string -> option string.
Variable base_domain : string.

Lemma discover_links_frame (hrefs : list (option string)) :
  forall st,
    let st' := discover_links netloc base_domain hrefs st in
    visited_pages st' = visited_pages st /\
    (exists new, enqueued st' = enqueued st ++ new).
Proof.
  induction hrefs as [| href rest IH]; intros st.
  - simpl. split; [done |]. exists []. by rewrite app_nil_r.
  - simpl.
    destruct (discover_link netloc base_domain href st) as [st1 |] eqn:Hl.
    + destruct (IH st1) as (Hv & new & He). simpl in Hv, He.
      apply discover_link_cases in Hl as [-> | (h & _ & _ & _ & _ & _ & ->)].
      * split; [done |]. by exists new.
      * split; [done |]. exists (h :: new). rewrite He. simpl.
        by rewrite <- app_assoc.
    + split; [done |]. exists []. by rewrite app_nil_r.
Qed.

(** One iteration marks at most the dequeued URL visited, keeps what
    was enqueued, and names only visited pages in new log lines. *)
Lemma crawl_step_effects (st : crawl_state) (p : page) :
  let st' := crawl_step netloc base_domain st p in
  (forall u, u ∈ visited_pages st' ->
             u ∈ visited_pages st \/ head (queue st) = Some u) /\
  (forall u, u ∈ visited_pages st -> u ∈ visited_pages st') /\
  (exists new, enqueued st' = enqueued st ++ new) /\
  (forall r, r ∈ download_log st' ->
             r ∈ download_log st \/ snd r ∈ visited_pages st').
Proof.
  assert (Hsame : forall st' : crawl_state,
             visited_pages st' = visited_pages st ->
             enqueued st' = enqueued st ->
             download_log st' = download_log st ->
             (forall u, u ∈ visited_pages st' ->
                        u ∈ visited_pages st \/ head (queue st) = Some u) /\
             (forall u, u ∈ visited_pages st -> u ∈ visited_pages st') /\
             (exists new, enqueued st' = enqueued st ++ new) /\
             (forall r, r ∈ download_log st' ->
                        r ∈ download_log st \/ snd r ∈ visited_pages st')).
  { intros st' -> -> ->. repeat split; try (intros; by left); try done.
    exists []. by rewrite app_nil_r. }
  unfold crawl_step.
  destruct (queue st) as [| url rest] eqn:Hqueue; [by apply Hsame |].
  destruct (bool_decide (url ∈ visited_pages (popleft url rest st)));
    [by apply Hsame |].
  destruct (nav_ok p); simpl; [| by apply Hsame].
  destruct (scrape_ok p); simpl.
  - set (st2 := mark_visited url (popleft url rest st)).
    destruct (discover_links_frame (link_hrefs p) (download_phase p url st2))
      as (Hv & new & He).
    destruct (discover_links_downloads netloc base_domain (link_hrefs p)
                (download_phase p url st2)) as (_ & Hl & _).
    destruct (download_phase_frontier p url st2) as (Hv2 & _ & _ & _ & He2).
    destruct (download_phase_spec p url st2) as (tasks & _ & Hl2 & _).
    simpl in Hv, He, Hl. rewrite Hv, He, Hl, Hv2, He2, Hl2. simpl.
    split; [| split; [| split]].
    + intros u Hu. apply elem_of_union in Hu as [Hu | Hu]; [| by left].
      apply elem_of_singleton in Hu. subst u. by right.
    + intros u Hu. apply elem_of_union. by right.
    + by exists new.
    + intros r Hr. apply elem_of_app in Hr as [Hr | Hr]; [by left |].
      apply gather_downloads_elem in Hr as (u & _ & _ & ->). simpl.
      right. apply elem_of_union. left. by apply elem_of_singleton.
  - split; [| split; [| split]].
    + intros u Hu. apply elem_of_union in Hu as [Hu | Hu]; [| by left].
      apply elem_of_singleton in Hu. subst u. by right.
    + intros u Hu. apply elem_of_union. by right.
    + exists []. by rewrite app_nil_r.
    + intros r Hr. by left.
Qed.

Lemma crawl_step_provenance (st : crawl_state) (p : page) :
  frontier_inv st -> provenance_inv st ->
  provenance_inv (crawl_step netloc base_domain st p).
Proof.
  intros (_ & _ & Hfifo & _) [Hvis Hlog].
  destruct (crawl_step_effects st p) as (Hv & Hmono & (new & He) & Hl).
  split.
  - intros u Hu. rewrite He. apply elem_of_app. left.
    apply Hv in Hu as [Hu | Hu]; [by apply Hvis |].
    rewrite Hfifo. apply elem_of_app. right.
    destruct (queue st) as [| url rest]; [done |].
    simpl in Hu. inversion Hu; subst. by left.
  - intros r Hr. apply Hl in Hr as [Hr | Hr]; [| done].
    by apply Hmono, Hlog.
Qed.

Lemma crawl_steps_provenance (pages : list page) :
  forall st, frontier_inv st -> provenance_inv st ->
             provenance_inv (fold_left (crawl_step netloc base_domain) pages st).
Proof.
  induction pages as [| p pages IH]; intros st Hf Hp; [done |].
  simpl. apply IH; [by apply crawl_step_frontier_inv |].
  by apply crawl_step_provenance.
Qed.

Lemma provenance_inv_initial (START : string) :
  provenance_inv (initial_state START).
Proof.
  split; simpl.
  - intros u Hu. by apply elem_of_empty in Hu.
  - intros r Hr. by apply elem_of_nil in Hr.
Qed.

End Provenance.

(** X10. The crawler never loads a page outside its domain: every URL
    in the visited set of a run is the start URL or begins with [http]
    and has the base domain as its [netloc]. *)
Theorem visited_in_domain
    (netloc : string -> option string) (base_domain START : string)
    (pages : list page) (u : string) :
  u ∈ visited_pages (crawl netloc base_domain START pages) ->
  u = START \/
  (String.prefix "http" u = true /\ netloc u = Some base_domain).
Proof.
  intros Hu.
  destruct (crawl_steps_provenance netloc base_domain pages
              (initial_state START) (frontier_inv_initial START)
              (provenance_inv_initial START)) as [Hvis _].
  apply Hvis in Hu.
  revert u Hu.
  apply (crawl_steps_enqueued netloc base_domain
           (fun u => u = START \/
                     (String.prefix "http" u = true /\
                      netloc u = Some base_domain))).
  - intros v Hv. right. exact Hv.
  - simpl. intros v Hv. apply list_elem_of_singleton in Hv. by left.
Qed.

Lemma visited_in_domain_witness :
  cfr_about = START_URL \/
  (String.prefix "http" cfr_about = true /\
   netloc_plain cfr_about = Some govinfo).
Proof.
  apply (visited_in_domain netloc_plain govinfo START_URL
           [hub_page; unreachable_page; back_link_page] cfr_about).
  vm_compute. reflexivity.
Defined.

(** X11. Every line of the download log is backed by the run: its
    document URL is in [downloaded_pdf_urls] and was requested, and its
    source URL is a page of the visited set. *)
Theorem download_log_provenance
    (netloc : string -> option string) (base_domain START : string)
    (pages : list page) (pdf_url source_url : string) :
  let st := crawl netloc base_domain START pages in
  (pdf_url, source_url) ∈ download_log st ->
  pdf_url ∈ downloaded_pdf_urls st /\ pdf_url ∈ fetched st /\
  source_url ∈ visited_pages st.
Proof.
  intros st Hr.
  destruct (crawl_steps_provenance netloc base_domain pages
              (initial_state START) (frontier_inv_initial START)
              (provenance_inv_initial START)) as [_ Hlog].
  destruct (crawl_steps_download_inv netloc base_domain pages
              (initial_state START) (download_inv_initial START))
    as (_ & Hset & _ & Hsub).
  fold (crawl netloc base_domain START pages) in Hlog, Hset, Hsub.
  fold st in Hlog, Hset, Hsub.
  assert (Hf : pdf_url ∈ fetched st).
  { apply Hsub. apply list_elem_of_fmap. by exists (pdf_url, source_url). }
  split; [by apply Hset | split; [done |]].
  by apply (Hlog (pdf_url, source_url)).
Qed.

Lemma download_log_provenance_witness :
  let st := crawl netloc_plain govinfo START_URL [start_page] in
  cfr_pdf ∈ downloaded_pdf_urls st /\ cfr_pdf ∈ fetched st /\
  START_URL ∈ visited_pages st.
Proof.
  apply (download_log_provenance netloc_plain govinfo START_URL [start_page]
           cfr_pdf START_URL).
  vm_compute. apply list_elem_of_In. left. reflexivity.
Defined.

(* ===================================================================== *)
(** * The crawl loop of universal_scraper_agent.py *)
(* ===================================================================== *)

Lemma universal_link_cases (href : option string) (st : ustate) :
  universal_link href st = st \/
  exists h, href = Some h /\ universal_link_filter (Some h) = true /\
            (h ∉ u_visited_pages st) /\ (h ∉ u_queue st) /\
            universal_link href st = u_append h st.
Proof.
  unfold universal_link. destruct href as [h |]; [| by left].
  destruct (universal_link_filter (Some h)) eqn:Hf; [| by left].
  destruct (bool_decide (h ∉ u_visited_pages st)) eqn:Hv; [| by left].
  destruct (bool_decide (h ∉ u_queue st)) eqn:Hq; [| by left].
  apply bool_decide_eq_true in Hv, Hq. simpl. right. by exists h.
Qed.

Lemma u_append_frontier_inv (h : string) (st : ustate) :
  h ∉ u_visited_pages st -> h ∉ u_queue st ->
  u_frontier_inv st -> u_frontier_inv (u_append h st).
Proof.
  intros Hv Hq (Hnd & Hdis & Hnav & Hvis & Hsize).
  unfold u_frontier_inv. simpl. split; [| split; [| done]].
  - apply NoDup_app. split; [done | split; [| apply NoDup_singleton]].
    intros u Hu Hin. apply list_elem_of_singleton in Hin. by subst u.
  - intros u Hu. apply elem_of_app in Hu as [Hu | Hu]; [by apply Hdis |].
    apply list_elem_of_singleton in Hu. by subst u.
Qed.

(** A property of the state that the link loop keeps. *)
Lemma universal_links_keep (P : ustate -> Prop)
    (hrefs : list (option string)) :
  (forall h st, universal_link_filter (Some h) = true ->
                h ∉ u_visited_pages st -> h ∉ u_queue st ->
                P st -> P (u_append h st)) ->
  forall st, P st -> P (universal_links hrefs st).
Proof.
  intros Hstep. unfold universal_links.
  induction hrefs as [| href rest IH]; intros st Hst; [done |].
  simpl. apply IH.
  destruct (universal_link_cases href st) as [-> | (h & _ & Hf & Hv & Hq & ->)];
    [done |]. by apply Hstep.
Qed.

(** A property of the state that the download loop keeps. *)
Lemma universal_downloads_keep (P : ustate -> Prop) (p : upage)
    (new_pdfs : list string) :
  (forall u st, P st -> P (u_request u st)) ->
  (forall u st, u ∉ u_downloaded_pdfs st ->
                P (u_request u st) -> P (u_store u (u_request u st))) ->
  forall st, P st -> P (fst (universal_downloads p new_pdfs st)).
Proof.
  intros Hreq Hstore.
  induction new_pdfs as [| pdf_url rest IH]; intros st Hst; [done |].
  simpl. destruct (bool_decide (pdf_url ∈ u_downloaded_pdfs st)) eqn:Hin;
    [by apply IH |].
  apply bool_decide_eq_false in Hin.
  destruct (u_fetch p pdf_url); simpl.
  - apply IH. apply Hstore; [done |]. by apply Hreq.
  - apply IH. by apply Hreq.
  - by apply Hreq.
Qed.

Lemma universal_step_keep (P : ustate -> Prop) (st : ustate) (p : upage) :
  (forall url rest, u_queue st = url :: rest ->
                    (size (u_visited_pages st) < MAX_PAGES)%nat ->
                    P (u_popleft rest st) /\
                    (url ∉ u_visited_pages st ->
                     P (u_mark_visited url (u_popleft rest st)))) ->
  (forall u st, P st -> P (u_request u st)) ->
  (forall u st, u ∉ u_downloaded_pdfs st ->
                P (u_request u st) -> P (u_store u (u_request u st))) ->
  (forall h st, universal_link_filter (Some h) = true ->
                h ∉ u_visited_pages st -> h ∉ u_queue st ->
                P st -> P (u_append h st)) ->
  P st -> P (universal_step st p).
Proof.
  intros Hpop Hreq Hstore Happ Hst. unfold universal_step.
  destruct (u_queue st) as [| url rest] eqn:Hqueue; [done |].
  destruct (Nat.ltb_spec (size (u_visited_pages st)) MAX_PAGES) as [Hlt | Hge];
    simpl; [| done].
  destruct (size (u_downloaded_pdfs st) <? MAX_PDFS)%nat; [| done].
  destruct (Hpop url rest eq_refl Hlt) as [Hp1 Hp2].
  destruct (bool_decide (url ∈ u_visited_pages st)) eqn:Hv; [done |].
  apply bool_decide_eq_false in Hv.
  destruct (u_nav_ok p); simpl; [| done].
  destruct (u_scrape_ok p); simpl; [| by apply Hp2].
  pose proof (universal_downloads_keep P p
                (elements (list_to_set (omap truthy_href (u_pdf_hrefs p))
                           : gset string))
                Hreq Hstore _ (Hp2 Hv)) as Hd.
  destruct (universal_downloads p _ _) as [st3 [|]]; simpl in Hd; [| done].
  by apply universal_links_keep.
Qed.

Lemma universal_crawl_keep (P : ustate -> Prop) (pages : list upage) :
  (forall st p, P st -> P (universal_step st p)) ->
  forall st, P st -> P (fold_left universal_step pages st).
Proof.
  intros Hstep. induction pages as [| p pages IH]; intros st Hst; [done |].
  simpl. by apply IH, Hstep.
Qed.

Lemma universal_step_frontier_inv (st : ustate) (p : upage) :
  u_frontier_inv st -> u_frontier_inv (universal_step st p).
Proof.
  intros Hinv. apply universal_step_keep; try done.
  - intros url rest Hqueue Hlt.
    destruct Hinv as (Hnd & Hdis & Hnav & Hvis & Hsize).
    rewrite Hqueue in Hnd, Hdis. apply NoDup_cons in Hnd as [Hurl Hrest].
    split.
    + unfold u_frontier_inv. simpl. split; [done | split; [| done]].
      intros u Hu. apply Hdis. by right.
    + intros Hfresh. unfold u_frontier_inv. simpl.
      split; [done | split; [| split; [| split]]].
      * intros u Hu Hin. apply elem_of_union in Hin as [Hin | Hin].
        -- apply elem_of_singleton in Hin. by subst u.
        -- apply (Hdis u); [by right | done].
      * apply NoDup_app. split; [done | split; [| apply NoDup_singleton]].
        intros u Hu Hin. apply list_elem_of_singleton in Hin. subst u.
        by apply Hvis in Hu.
      * intros u. rewrite elem_of_app, list_elem_of_singleton, elem_of_union,
          elem_of_singleton, Hvis. tauto.
      * rewrite size_union by set_solver. rewrite size_singleton. lia.
  - intros h st0 _ Hv Hq H0. by apply u_append_frontier_inv.
Qed.

Lemma u_frontier_inv_initial (START : string) :
  u_frontier_inv (u_initial START).
Proof.
  unfold u_frontier_inv. simpl.
  split; [apply NoDup_singleton | split; [| split; [apply NoDup_nil_2 | split]]].
  - intros u _. set_solver.
  - intros u. set_solver.
  - apply Nat.le_0_l.
Qed.

Lemma universal_step_download_inv (st : ustate) (p : upage) :
  u_download_inv st -> u_download_inv (universal_step st p).
Proof.
  intros Hinv. apply universal_step_keep; try done.
  - intros u st0 (Hnd & Hset & Hsub). unfold u_download_inv. simpl.
    split; [done | split; [done |]].
    intros v Hv. apply elem_of_app. left. by apply Hsub.
  - intros u st0 Hfresh (Hnd & Hset & Hsub). unfold u_download_inv.
    simpl in *. rewrite fmap_app. simpl.
    split; [| split].
    + apply NoDup_app. split; [done | split; [| apply NoDup_singleton]].
      intros v Hv Hin. apply list_elem_of_singleton in Hin. subst v.
      by apply Hset in Hv.
    + intros v. rewrite elem_of_union, elem_of_singleton, elem_of_app,
        list_elem_of_singleton, Hset. tauto.
    + intros v Hv. apply elem_of_app in Hv as [Hv | Hv]; [by apply Hsub |].
      apply list_elem_of_singleton in Hv. subst v.
      apply elem_of_app. right. by apply list_elem_of_singleton.
Qed.

Lemma u_download_inv_initial (START : string) :
  u_download_inv (u_initial START).
Proof.
  unfold u_download_inv. simpl.
  split; [apply NoDup_nil_2 | split].
  - intros u. split; intros Hu.
    + by apply elem_of_empty in Hu.
    + by apply elem_of_nil in Hu.
  - intros u Hu. by apply elem_of_nil in Hu.
Qed.

(** X12. The loop of universal_scraper_agent.py keeps its frontier in
    order and respects the page limit: in every state it reaches the
    queue holds no URL twice and no visited URL, each visited page was
    loaded once, and at most [MAX_PAGES] pages have been visited. *)
Theorem universal_frontier_and_page_limit (START : string)
    (pages : list upage) :
  let st := universal_crawl START pages in
  NoDup (u_queue st) /\
  (forall u, u ∈ u_queue st -> u ∉ u_visited_pages st) /\
  NoDup (u_navigated st) /\
  (forall u, u ∈ u_navigated st <-> u ∈ u_visited_pages st) /\
  (size (u_visited_pages st) <= MAX_PAGES)%nat.
Proof.
  apply (universal_crawl_keep u_frontier_inv pages).
  - intros st p. apply universal_step_frontier_inv.
  - apply u_frontier_inv_initial.
Qed.

(** X13. The loop of universal_scraper_agent.py keeps document and
    image links out of its queue: every URL it ever enqueues, the start
    URL apart, begins with [http] and does not end, in any letter case,
    in [.pdf], [.zip], [.jpg] or [.png]. *)
Theorem universal_queue_excludes_documents (START : string)
    (pages : list upage) (u : string) :
  u ∈ u_enqueued (universal_crawl START pages) ->
  u = START \/
  (String.prefix "http" u = true /\
   endswith (lower u) ".pdf" = false /\ endswith (lower u) ".zip" = false /\
   endswith (lower u) ".jpg" = false /\ endswith (lower u) ".png" = false).
Proof.
  revert u.
  apply (universal_crawl_keep
           (fun st => forall u, u ∈ u_enqueued st ->
              u = START \/
              (String.prefix "http" u = true /\
               endswith (lower u) ".pdf" = false /\
               endswith (lower u) ".zip" = false /\
               endswith (lower u) ".jpg" = false /\
               endswith (lower u) ".png" = false)) pages).
  - intros st p Hst. apply universal_step_keep; try done.
    intros h st0 Hf _ _ H0 u Hu. simpl in Hu.
    apply elem_of_app in Hu as [Hu | Hu]; [by apply H0 |].
    apply list_elem_of_singleton in Hu. subst u. right.
    unfold universal_link_filter, truthy_href in Hf.
    destruct (str_falsy h); [done |].
    apply andb_true_iff in Hf as [Hp Hext]. split; [done |].
    apply negb_true_iff in Hext.
    repeat (apply orb_false_iff in Hext as [Hext ?]). done.
  - simpl. intros u Hu. apply list_elem_of_singleton in Hu. by left.
Qed.

Lemma universal_queue_excludes_documents_witness :
  cfr_help = START_URL \/
  (String.prefix "http" cfr_help = true /\
   endswith (lower cfr_help) ".pdf" = false /\
   endswith (lower cfr_help) ".zip" = false /\
   endswith (lower cfr_help) ".jpg" = false /\
   endswith (lower cfr_help) ".png" = false).
Proof.
  apply (universal_queue_excludes_documents START_URL [universal_page] cfr_help).
  vm_compute. apply list_elem_of_In. right. left. reflexivity.
Defined.

(** X14. In universal_scraper_agent.py [downloaded_pdfs] holds exactly
    the URLs whose file was written: each such URL was requested, and
    its file was written once, under the path computed from the URL. *)
Theorem universal_downloaded_are_stored (START : string)
    (pages : list upage) :
  let st := universal_crawl START pages in
  NoDup (snd <$> u_files st) /\
  (forall u, u ∈ u_downloaded_pdfs st <-> u ∈ (snd <$> u_files st)) /\
  (forall u, u ∈ (snd <$> u_files st) -> u ∈ u_requests st) /\
  (forall f, f ∈ u_files st -> fst f = universal_file_path (snd f)).
Proof.
  intros st.
  destruct (universal_crawl_keep u_download_inv pages
              universal_step_download_inv _ (u_download_inv_initial START))
    as (Hnd & Hset & Hsub).
  split; [done | split; [done | split; [done |]]].
  subst st.
  apply (universal_crawl_keep
           (fun st => forall f, f ∈ u_files st ->
                                fst f = universal_file_path (snd f)) pages).
  - intros st p Hst. apply universal_step_keep; try done.
    intros u st0 _ H0 f Hf. simpl in Hf.
    apply elem_of_app in Hf as [Hf | Hf]; [by apply H0 |].
    apply list_elem_of_singleton in Hf. by subst f.
  - simpl. intros f Hf. by apply elem_of_nil in Hf.
Qed.

(** X15. A download that fails with a request error is not remembered:
    when every fetch of a page fails that way, the download loop ends
    normally, has requested each URL not yet in [downloaded_pdfs], and
    leaves [downloaded_pdfs] and the files as they were, so the same
    URLs are requested again when a later page shows them. *)
Theorem universal_failed_downloads_forgotten (p : upage)
    (new_pdfs : list string) (st : ustate) :
  (forall u, u ∈ new_pdfs -> u_fetch p u = RequestError) ->
  let st' := fst (universal_downloads p new_pdfs st) in
  snd (universal_downloads p new_pdfs st) = true /\
  u_downloaded_pdfs st' = u_downloaded_pdfs st /\
  u_files st' = u_files st /\
  u_requests st'
  = u_requests st
    ++ List.filter (fun u => bool_decide (u ∉ u_downloaded_pdfs st)) new_pdfs.
Proof.
  revert st. induction new_pdfs as [| pdf_url rest IH]; intros st Hfail.
  - simpl. by rewrite app_nil_r.
  - simpl.
    assert (Hrest : forall u, u ∈ rest -> u_fetch p u = RequestError)
      by (intros u Hu; apply Hfail; by right).
    destruct (bool_decide (pdf_url ∈ u_downloaded_pdfs st)) eqn:Hin.
    + apply bool_decide_eq_true in Hin.
      rewrite (bool_decide_eq_false_2 (pdf_url ∉ u_downloaded_pdfs st))
        by (intros H; by apply H).
      by apply IH.
    + apply bool_decide_eq_false in Hin.
      rewrite (bool_decide_eq_true_2 (pdf_url ∉ u_downloaded_pdfs st)) by done.
      rewrite (Hfail pdf_url) by (by left).
      destruct (IH (u_request pdf_url st) Hrest) as (Hok & Hd & Hf & Hr).
      simpl in Hd, Hf, Hr. rewrite Hok, Hd, Hf, Hr. simpl.
      by rewrite <- app_assoc.
Qed.

Lemma universal_failed_downloads_forgotten_witness :
  u_requests
    (fst (universal_downloads universal_page
            ["https://example.org/missing.pdf"%string] (u_initial START_URL)))
  = ["https://example.org/missing.pdf"%string] /\
  u_downloaded_pdfs
    (fst (universal_downloads universal_page
            ["https://example.org/missing.pdf"%string] (u_initial START_URL)))
  = ∅.
Proof.
  destruct (universal_failed_downloads_forgotten universal_page
              ["https://example.org/missing.pdf"%string] (u_initial START_URL))
    as (_ & Hd & _ & Hr).
  - intros u Hu. apply list_elem_of_singleton in Hu. subst u. reflexivity.
  - split; [exact Hr | exact Hd].
Defined.

(* ===================================================================== *)
(** * What the pattern extracts *)
(* ===================================================================== *)

Section Extraction.
Local Open Scope string_scope.

Ltac str_norm :=
  repeat (rewrite string_app_cons || rewrite string_app_nil_l).

(** The greedy part: the longest prefix that ends with [c] stops at the
    last [c] of the string. *)
Lemma upto_last_Some (c : ascii) (s p : string) :
  upto_last c s = Some p ->
  exists mid post,
    p = mid ++ String c "" /\ s = p ++ post /\ has_char c post = false.
Proof.
  revert p. induction s as [| a s IH]; intros p H; simpl in H; [done |].
  destruct (upto_last c s) as [p' |] eqn:Hup.
  - inversion H; subst p.
    destruct (IH p' eq_refl) as (mid & post & -> & Hs & Hpost).
    exists (String a mid), post. str_norm. split; [done | split; [| done]].
    by rewrite Hs at 1.
  - destruct (Ascii.eqb a c) eqn:Hac; [| done].
    apply Ascii.eqb_eq in Hac. subst a. inversion H; subst p.
    exists "", s. str_norm. split; [done | split; [done |]].
    by apply upto_last_None.
Qed.

Lemma string_app_cons_inv (x y : string) (a b : ascii) (z : string) :
  String a x = y ++ String b z ->
  (y = "" /\ a = b /\ x = z) \/
  (exists y', y = String a y' /\ x = y' ++ String b z).
Proof.
  destruct y as [| a' y']; str_norm; intros H; inversion H; subst.
  - by left.
  - right. by exists y'.
Qed.

(** X16. What is handed to [json.loads]: the match is a piece of the
    response that runs from an opening brace to the last closing brace
    of the whole response, or from an opening bracket to the last
    closing bracket; it starts at the first opening brace or bracket
    that has its closing partner anywhere after it.  Two separate JSON
    values in one response are therefore taken as one text. *)
Theorem re_search_match_shape (s m : string) :
  re_search s = Some m ->
  exists pre post,
    s = pre ++ m ++ post /\
    ((exists mid, m = String "{" (mid ++ "}") /\ has_char "}" post = false) \/
     (exists mid, m = String "[" (mid ++ "]") /\ has_char "]" post = false)) /\
    (forall pre1 pre2, pre = pre1 ++ String "{" pre2 ->
                       has_char "}" (pre2 ++ m ++ post) = false) /\
    (forall pre1 pre2, pre = pre1 ++ String "[" pre2 ->
                       has_char "]" (pre2 ++ m ++ post) = false).
Proof.
  revert m. induction s as [| a s IH]; intros m H; simpl in H; [done |].
  assert (Hskip : (a = "{"%char -> has_char "}" s = false) ->
                  (a = "["%char -> has_char "]" s = false) ->
                  re_search s = Some m ->
                  exists pre post,
                    String a s = pre ++ m ++ post /\
                    ((exists mid, m = String "{" (mid ++ "}") /\
                                  has_char "}" post = false) \/
                     (exists mid, m = String "[" (mid ++ "]") /\
                                  has_char "]" post = false)) /\
                    (forall pre1 pre2, pre = pre1 ++ String "{" pre2 ->
                                       has_char "}" (pre2 ++ m ++ post) = false) /\
                    (forall pre1 pre2, pre = pre1 ++ String "[" pre2 ->
                                       has_char "]" (pre2 ++ m ++ post) = false)).
  { intros Hbrace Hbracket Hm.
    destruct (IH m Hm) as (pre & post & Hs & Hshape & Hl1 & Hl2).
    exists (String a pre), post. str_norm.
    split; [by rewrite Hs at 1 | split; [done | split]].
    - intros pre1 pre2 Hpre.
      apply string_app_cons_inv in Hpre as [(-> & -> & ->) | (y & -> & Hy)].
      + rewrite <- Hs. by apply Hbrace.
      + by apply (Hl1 y).
    - intros pre1 pre2 Hpre.
      apply string_app_cons_inv in Hpre as [(-> & -> & ->) | (y & -> & Hy)].
      + rewrite <- Hs. by apply Hbracket.
      + by apply (Hl2 y). }
  assert (Hhere : forall (c : ascii) p,
             upto_last c s = Some p -> m = String a p ->
             exists mid post,
               String a s = "" ++ m ++ post /\ m = String a (mid ++ String c "") /\
               has_char c post = false).
  { intros c p Hup ->.
    apply upto_last_Some in Hup as (mid & post & -> & Hs & Hpost).
    exists mid, post. str_norm. split; [by rewrite Hs at 1 | done]. }
  destruct (Ascii.eqb a "{") eqn:Hbrace.
  - apply Ascii.eqb_eq in Hbrace. subst a.
    destruct (upto_last "}" s) as [p |] eqn:Hup.
    + inversion H as [Hm]. symmetry in Hm.
      destruct (Hhere "}"%char p Hup Hm) as (mid & post & Hs & Hmid & Hpost).
      exists "", post. rewrite <- Hm. split; [exact Hs | split; [| split]].
      * left. by exists mid.
      * intros pre1 pre2 Hpre. by destruct pre1.
      * intros pre1 pre2 Hpre. by destruct pre1.
    + apply Hskip; [| done | done]. intros _. by apply upto_last_None.
  - apply Ascii.eqb_neq in Hbrace.
    destruct (Ascii.eqb a "[") eqn:Hbracket.
    + apply Ascii.eqb_eq in Hbracket. subst a.
      destruct (upto_last "]" s) as [p |] eqn:Hup.
      * inversion H as [Hm]. symmetry in Hm.
        destruct (Hhere "]"%char p Hup Hm) as (mid & post & Hs & Hmid & Hpost).
        exists "", post. rewrite <- Hm. split; [exact Hs | split; [| split]].
        -- right. by exists mid.
        -- intros pre1 pre2 Hpre. by destruct pre1.
        -- intros pre1 pre2 Hpre. by destruct pre1.
      * apply Hskip; [done | | done]. intros _. by apply upto_last_None.
    + apply Ascii.eqb_neq in Hbracket. by apply Hskip.
Qed.

Lemma re_search_match_shape_witness :
  exists pre post,
    "ok {a} and {b}." = pre ++ "{a} and {b}" ++ post.
Proof.
  destruct (re_search_match_shape "ok {a} and {b}." "{a} and {b}" eq_refl)
    as (pre & post & Hs & _).
  by exists pre, post.
Defined.

End Extraction.

(* ===================================================================== *)
(** * scraper-agent.py has no page limit *)
(* ===================================================================== *)

Lemma pad_length (k : nat) : String.length (pad k) = k.
Proof. induction k as [| k IH]; simpl; [done | by rewrite IH]. Qed.

Lemma chain_url_unfold (k : nat) :
  chain_url k
  = String "h" (String "t" (String "t" (String "p" (String ":" (String "/"
      (String "/" (String "h" (String "/" (pad k))))))))).
Proof. reflexivity. Qed.

Lemma chain_url_inj (j k : nat) : chain_url j = chain_url k -> j = k.
Proof.
  rewrite !chain_url_unfold. intros H. inversion H as [Hpad].
  by rewrite <- (pad_length j), <- (pad_length k), Hpad.
Qed.

Lemma netloc_plain_chain (k : nat) : netloc_plain (chain_url k) = Some "h"%string.
Proof.
  rewrite chain_url_unfold. unfold netloc_plain, after_scheme. simpl.
  reflexivity.
Qed.

(** The snapshot of page [k] is named by [k + 14] characters. *)
Lemma chain_snapshot_name_length (k : nat) :
  String.length (safe_filename (chain_url k)) = (k + 14)%nat.
Proof.
  unfold safe_filename. rewrite string_length_app, sanitize_length.
  rewrite chain_url_unfold. simpl. rewrite pad_length. lia.
Qed.

Lemma chain_page_lookup (n k : nat) (p : page) :
  chain_pages n !! k = Some p -> (k < n)%nat /\ p = chain_page k.
Proof.
  unfold chain_pages. intros H.
  apply list_lookup_fmap_Some in H as (j & -> & Hj).
  apply lookup_seq in Hj as [-> Hlt]. done.
Qed.

Section NoLimit.
Variable netloc : string -> option string.
Variable base_domain : string.

Lemma discover_link_fresh (h : string) (st : crawl_state) :
  String.prefix "http" h = true ->
  netloc h = Some base_domain ->
  h ∉ visited_pages st -> h ∉ queue st ->
  discover_link netloc base_domain (Some h) st = Some (append_queue h st).
Proof.
  intros Hp Hn Hv Hq. unfold discover_link, truthy_href.
  assert (Hf : str_falsy h = false) by (by destruct h).
  rewrite Hf, Hp, Hn, String.eqb_refl.
  by rewrite (bool_decide_eq_true_2 _ Hv), (bool_decide_eq_true_2 _ Hq).
Qed.

Variable url : nat -> string.

(** As long as every page loads, is scraped without an exception and
    shows one anchor, to a page of the domain not seen before: after
    [n] iterations [n] pages are visited and the next one is queued. *)
Lemma site_crawl_state (pages : list page) :
  (forall j k, (j <= length pages)%nat -> (k <= length pages)%nat ->
               url j = url k -> j = k) ->
  (forall k, (k <= length pages)%nat ->
             String.prefix "http" (url k) = true /\
             netloc (url k) = Some base_domain) ->
  (forall k p, pages !! k = Some p ->
               nav_ok p = true /\ scrape_ok p = true /\
               link_hrefs p = [Some (url (S k))]) ->
  let st := crawl netloc base_domain (url 0%nat) pages in
  queue st = [url (length pages)] /\
  size (visited_pages st) = length pages /\
  (forall u, u ∈ visited_pages st ->
             exists k, (k < length pages)%nat /\ u = url k).
Proof.
  induction pages as [| p pages IH] using rev_ind; intros Hinj Hdom Hpage.
  - simpl. split; [done | split; [done |]].
    intros u Hu. by apply elem_of_empty in Hu.
  - rewrite length_app in *. simpl in *.
    set (n := length pages) in *.
    destruct IH as (Hq & Hsize & Hvis).
    { intros j k Hj Hk. apply Hinj; lia. }
    { intros k Hk. apply Hdom. lia. }
    { intros k q Hk. apply Hpage. by apply lookup_app_l_Some. }
    destruct (Hpage n p) as (Hnav & Hscrape & Hlinks).
    { subst n. by apply list_lookup_middle. }
    unfold crawl in *. rewrite fold_left_app. simpl.
    set (st := fold_left (crawl_step netloc base_domain) pages
                 (initial_state (url 0%nat))) in *.
    assert (Hfresh : url n ∉ visited_pages st).
    { intros Hin. apply Hvis in Hin as (k & Hk & Heq).
      apply Hinj in Heq; lia. }
    unfold crawl_step. rewrite Hq. simpl.
    rewrite (bool_decide_eq_false_2 _ Hfresh), Hnav, Hscrape, Hlinks. simpl.
    set (st2 := mark_visited (url n) (popleft (url n) [] st)).
    destruct (download_phase_frontier p (url n) st2) as (Hv & Hqd & _).
    destruct (Hdom (S n)) as (Hp & Hn); [lia |].
    rewrite discover_link_fresh; [| done | done | |].
    + simpl. rewrite Hv, Hqd. simpl.
      replace (n + 1)%nat with (S n) by lia.
      split; [done | split].
      * rewrite size_union by set_solver. rewrite size_singleton, Hsize. done.
      * intros u Hu. apply elem_of_union in Hu as [Hu | Hu].
        -- apply elem_of_singleton in Hu. exists n. split; [lia | done].
        -- apply Hvis in Hu as (k & Hk & ->). exists k. split; [lia | done].
    + rewrite Hv. simpl. intros Hin. apply elem_of_union in Hin as [Hin | Hin].
      * apply elem_of_singleton in Hin. apply Hinj in Hin; lia.
      * apply Hvis in Hin as (k & Hk & Heq). apply Hinj in Heq; lia.
    + rewrite Hqd. simpl. intros Hin. by apply elem_of_nil in Hin.
Qed.

End NoLimit.

(** X17. scraper-agent.py has no limit on the pages it visits (the
    sibling loop stops at [MAX_PAGES]).  On a site of distinct pages
    [url 0%nat], [url 1], ... of the base domain, as long as every page
    loads, is scraped without an exception (its snapshot is written,
    the selector detection returns) and shows one anchor, to the next
    page: after [n] iterations, for every [n], the loop has visited [n]
    pages and still has a page queued. *)
Theorem crawl_has_no_page_limit
    (netloc : string -> option string) (base_domain : string)
    (url : nat -> string) (pages : list page) :
  (forall j k, (j <= length pages)%nat -> (k <= length pages)%nat ->
               url j = url k -> j = k) ->
  (forall k, (k <= length pages)%nat ->
             String.prefix "http" (url k) = true /\
             netloc (url k) = Some base_domain) ->
  (forall k p, pages !! k = Some p ->
               nav_ok p = true /\ scrape_ok p = true /\
               link_hrefs p = [Some (url (S k))]) ->
  let st := crawl netloc base_domain (url 0%nat) pages in
  size (visited_pages st) = length pages /\
  queue st = [url (length pages)].
Proof.
  intros Hinj Hdom Hpage st.
  destruct (site_crawl_state netloc base_domain url pages Hinj Hdom Hpage)
    as (Hq & Hsize & _).
  by split.
Qed.

Lemma crawl_has_no_page_limit_witness :
  let st := crawl netloc_plain "h" (chain_url 0) (chain_pages (S MAX_PAGES)) in
  size (visited_pages st) = length (chain_pages (S MAX_PAGES)) /\
  queue st = [chain_url (length (chain_pages (S MAX_PAGES)))].
Proof.
  apply (crawl_has_no_page_limit netloc_plain "h" chain_url
           (chain_pages (S MAX_PAGES))).
  - intros j k _ _. apply chain_url_inj.
  - intros k _. split; [by rewrite chain_url_unfold | apply netloc_plain_chain].
  - intros k p Hk. apply chain_page_lookup in Hk as [Hlt ->].
    split; [reflexivity | split; [| reflexivity]].
    unfold chain_page, scrape_ok, snapshot_name_fits.
    rewrite chain_snapshot_name_length. apply Nat.leb_le.
    unfold MAX_PAGES, NAME_MAX in *. lia.
Defined.

(** On the site of [chain_url] itself the crawl ends after 243 pages:
    the snapshot of page 242 has a name of 256 characters, the write
    raises, and the link loop of that iteration is not reached. *)
Example chain_crawl_ends_at_name_limit :
  let st := crawl netloc_plain "h" (chain_url 0) (chain_pages 300) in
  size (visited_pages st) = 243%nat /\ queue st = [].
Proof. vm_compute. done. Qed.
